(** * parfold.bst: optimistic-concurrency binary search tree

    A shallow embedding of [src/parfold/bst.py].  The tree lives in a store
    of [Node] objects addressed by position; every [insert] coroutine is a
    task whose frame ([locals]) survives across its single suspension point,
    the awaited comparison.  The asyncio event loop is cooperative: a task
    runs from one suspension point to the next without interruption, so a
    schedule is a list of calls made and turns given.  [CachedCompare] is embedded in the
    module [Cached] at the end of the definitions. *)

From stdpp Require Import base option list sorting gmap.
From Stdlib Require Import ZArith Lia Sorting.Sorted.

Local Open Scope Z_scope.

(** ** Data model *)

Definition addr := nat.

Section Tree.

Context {T E : Type}.

(** [class Node]: a dataclass with defaults [left = right = None],
    [version = 0]. *)
Record Node := mkNode {
  value : T;
  left : option addr;
  right : option addr;
  version : Z
}.

(** [Node(value)] *)
Definition new_Node (v : T) : Node :=
  {| value := v; left := None; right := None; version := 0 |}.

(** [class BST]: the attributes set by [__init__]; [store] is the object
    store in which the nodes reachable from [_root] live, [_root_lock] holds
    whether the [asyncio.Lock] is currently taken. *)
Record BST := mkBST {
  store : list Node;
  _root : option addr;
  _max_retries : Z;
  _root_lock : bool
}.

(** [BST(compare, max_retries)] *)
Definition BST_init (max_retries : Z) : BST :=
  {| store := []; _root := None; _max_retries := max_retries;
     _root_lock := false |}.

(** What an awaited call to the user's comparison hands back: an integer or
    an exception. *)
Inductive reply := Ret (c : Z) | Exc (e : E).

(** The local variables of one [insert] call. *)
Record locals := mkLocals {
  l_value : T;
  retries : Z;
  node : option addr;
  parent : option addr;
  go_left : bool
}.

(** [saved_version], [saved_left], [saved_right] (lines 103-105). *)
Record snapshot := mkSnapshot {
  saved_version : Z;
  saved_left : option addr;
  saved_right : option addr
}.

Inductive error :=
  | RetryExhausted            (* the RuntimeError of line 121 *)
  | CompareError (e : E).     (* whatever the comparison raised *)

(** The four [return] statements of [insert] (lines 72, 84, 91, 96). *)
Inductive site := RootClaimed | RootInLoop | AttachedLeft | AttachedRight.

(** Where a task stands.  [Running] is control inside the [while] loop (a
    [continue] or the fall-through to the next iteration); a task is only
    ever descheduled in the other states.  [Stuck] stands for a dereference
    of an address outside the store, which Python objects cannot produce. *)
Inductive status :=
  | Fresh
  | WaitingLock
  | Running
  | AwaitingCompare (s : snapshot)
  | Returned (s : site)
  | Raised (e : error)
  | Stuck.

Definition outcome : Type := BST * locals * status.

Definition set_store (b : BST) (h : list Node) : BST :=
  {| store := h; _root := _root b; _max_retries := _max_retries b;
     _root_lock := _root_lock b |}.
Definition set_root (b : BST) (r : option addr) : BST :=
  {| store := store b; _root := r; _max_retries := _max_retries b;
     _root_lock := _root_lock b |}.
Definition set_lock (b : BST) (k : bool) : BST :=
  {| store := store b; _root := _root b; _max_retries := _max_retries b;
     _root_lock := k |}.

Definition set_left (n : Node) (c : option addr) : Node :=
  {| value := value n; left := c; right := right n; version := version n |}.
Definition set_right (n : Node) (c : option addr) : Node :=
  {| value := value n; left := left n; right := c; version := version n |}.
Definition bump_version (n : Node) : Node :=
  {| value := value n; left := left n; right := right n;
     version := version n + 1 |}.

Definition is_None {A} (o : option A) : bool :=
  match o with None => true | Some _ => false end.

(** ** [BST.insert] *)

(** Lines 98-100: [retries += 1; node = self._root; parent = None]. *)
Definition restart (b : BST) (l : locals) : locals :=
  {| l_value := l_value l; retries := retries l + 1; node := _root b;
     parent := None; go_left := go_left l |}.

(** Lines 80-107, one pass through the loop body up to the [await].  The
    object [Node(value)] of line 81 enters the store when it is linked into
    the tree; built and then dropped (a failed attachment) it is garbage
    that nothing can reach. *)
Definition loop_body (b : BST) (l : locals) : outcome :=
  match node l with
  | None =>
      let new_node := length (store b) in
      match parent l with
      | None =>
          (set_root (set_store b (store b ++ [new_Node (l_value l)]))
                    (Some new_node), l, Returned RootInLoop)
      | Some p =>
          match store b !! p with
          | None => (b, l, Stuck)
          | Some pn =>
              let expected_version := version pn in
              if go_left l then
                if is_None (left pn) && (version pn =? expected_version) then
                  (set_store b
                     (<[p := bump_version (set_left pn (Some new_node))]>
                        (store b) ++ [new_Node (l_value l)]),
                   l, Returned AttachedLeft)
                else (b, restart b l, Running)
              else
                if is_None (right pn) && (version pn =? expected_version) then
                  (set_store b
                     (<[p := bump_version (set_right pn (Some new_node))]>
                        (store b) ++ [new_Node (l_value l)]),
                   l, Returned AttachedRight)
                else (b, restart b l, Running)
          end
      end
  | Some n =>
      match store b !! n with
      | None => (b, l, Stuck)
      | Some nd =>
          (b, l, AwaitingCompare
                   {| saved_version := version nd;
                      saved_left := left nd;
                      saved_right := right nd |})
      end
  end.

(** Lines 79 and 121: the [while] guard around [loop_body] and the [raise]
    behind the loop.  [fuel] bounds the passes made without suspending. *)
Fixpoint insert_loop (fuel : nat) (b : BST) (l : locals) : outcome :=
  match fuel with
  | O => (b, l, Running)
  | S fuel' =>
      if retries l <? _max_retries b then
        match loop_body b l with
        | (b', l', Running) => insert_loop fuel' b' l'
        | out => out
        end
      else (b, l, Raised RetryExhausted)
  end.

(** Two passes always reach a suspension, a [return] or the [raise]
    (lemma [insert_loop_fuel]). *)
Definition loop_fuel : nat := 2.

(** Lines 107-119: the task resumes with the comparison's [reply]. *)
Definition after_compare (b : BST) (l : locals) (s : snapshot) (r : reply)
  : outcome :=
  match r with
  | Exc e => (b, l, Raised (CompareError e))
  | Ret cmp =>
      match node l with
      | None => (b, l, Stuck)
      | Some n =>
          match store b !! n with
          | None => (b, l, Stuck)
          | Some nd =>
              if negb (version nd =? saved_version s) then
                (b, {| l_value := l_value l; retries := retries l + 1;
                       node := node l; parent := parent l;
                       go_left := go_left l |}, Running)
              else if cmp <? 0 then
                (b, {| l_value := l_value l; retries := retries l;
                       node := saved_left s; parent := Some n;
                       go_left := true |}, Running)
              else
                (b, {| l_value := l_value l; retries := retries l;
                       node := saved_right s; parent := Some n;
                       go_left := false |}, Running)
          end
      end
  end.

(** Lines 74-77, then the loop. *)
Definition enter_loop (b : BST) (l : locals) : outcome :=
  insert_loop loop_fuel b
    {| l_value := l_value l; retries := 0; node := _root b; parent := None;
       go_left := false |}.

(** Lines 69-72 with the lock free: acquire, re-check, claim or fall
    through, release.  Nothing is awaited while the lock is held. *)
Definition with_root_lock (b : BST) (l : locals) : outcome :=
  let b1 := set_lock b true in
  if is_None (_root b1) then
    (set_lock
       (set_root (set_store b1 (store b1 ++ [new_Node (l_value l)]))
                 (Some (length (store b1))))
       false,
     l, Returned RootClaimed)
  else enter_loop (set_lock b1 false) l.

(** Lines 68-77: the start of [insert].  Acquiring a free [asyncio.Lock]
    does not suspend; a taken one parks the task. *)
Definition insert_start (b : BST) (l : locals) : outcome :=
  if is_None (_root b) then
    if _root_lock b then (b, l, WaitingLock) else with_root_lock b l
  else enter_loop b l.

(** ** The event loop *)

Record task := mkTask { t_status : status; t_locals : locals }.

Variable compare : T -> T -> reply.

(** The answer to the pending [await self._compare(value, node.value)]. *)
Definition pending_reply (b : BST) (l : locals) : option reply :=
  n ← node l; nd ← store b !! n; Some (compare (l_value l) (value nd)).

(** Run task [k] from where it stands to its next suspension point. *)
Definition resume (b : BST) (k : task) : outcome :=
  let l := t_locals k in
  match t_status k with
  | Fresh => insert_start b l
  | WaitingLock =>
      if _root_lock b then (b, l, WaitingLock) else with_root_lock b l
  | AwaitingCompare s =>
      match pending_reply b l with
      | None => (b, l, Stuck)
      | Some r =>
          match after_compare b l s r with
          | (b', l', Running) => insert_loop loop_fuel b' l'
          | out => out
          end
      end
  | st => (b, l, st)
  end.

Record system := mkSystem { tree : BST; tasks : list task }.

(** [Spawn v]: somebody calls [tree.insert(v)] (the coroutine exists but has
    not run yet); [Run i]: the event loop gives task [i] its turn. *)
Inductive action := Spawn (v : T) | Run (i : nat).

Definition fresh_task (v : T) : task :=
  {| t_status := Fresh;
     t_locals := {| l_value := v; retries := 0; node := None;
                    parent := None; go_left := false |} |}.

Definition exec_action (s : system) (a : action) : system :=
  match a with
  | Spawn v => {| tree := tree s; tasks := tasks s ++ [fresh_task v] |}
  | Run i =>
      match tasks s !! i with
      | None => s
      | Some k =>
          let '(b', l', st') := resume (tree s) k in
          {| tree := b';
             tasks := <[i := {| t_status := st'; t_locals := l' |}]> (tasks s) |}
      end
  end.

Definition exec (sched : list action) (s : system) : system :=
  fold_left exec_action sched s.

Definition system_init (max_retries : Z) : system :=
  {| tree := BST_init max_retries; tasks := [] |}.

(** ** [contains], [to_list], [__len__] *)

Inductive result (A : Type) := Value (a : A) | Failure (e : E).
#[global] Arguments Value {A} a.
#[global] Arguments Failure {A} e.

(** Lines 125-131; [fuel] bounds the iterations of the [while]. *)
Fixpoint contains_from (fuel : nat) (h : list Node) (nd : option addr) (v : T)
  : option (result bool) :=
  match nd with
  | None => Some (Value false)
  | Some n =>
      match fuel with
      | O => None
      | S fuel' =>
          match h !! n with
          | None => None
          | Some x =>
              match compare v (value x) with
              | Exc e => Some (Failure e)
              | Ret cmp =>
                  if cmp =? 0 then Some (Value true)
                  else contains_from fuel' h
                         (if cmp <? 0 then left x else right x) v
              end
          end
      end
  end.

Definition contains (fuel : nat) (b : BST) (v : T) : option (result bool) :=
  contains_from fuel (store b) (_root b) v.

(** Lines 137-142: [inorder] appends to the shared list [result]; [fuel]
    bounds the recursion depth. *)
Fixpoint inorder (fuel : nat) (h : list Node) (nd : option addr)
    (result : list T) : option (list T) :=
  match nd with
  | None => Some result
  | Some n =>
      match fuel with
      | O => None
      | S fuel' =>
          match h !! n with
          | None => None
          | Some x =>
              match inorder fuel' h (left x) result with
              | None => None
              | Some result1 =>
                  inorder fuel' h (right x) (result1 ++ [value x])
              end
          end
      end
  end.

Definition to_list (fuel : nat) (b : BST) : option (list T) :=
  inorder fuel (store b) (_root b) [].

(** Lines 149-152. *)
Fixpoint count (fuel : nat) (h : list Node) (nd : option addr) : option Z :=
  match nd with
  | None => Some 0
  | Some n =>
      match fuel with
      | O => None
      | S fuel' =>
          match h !! n with
          | None => None
          | Some x =>
              match count fuel' h (left x), count fuel' h (right x) with
              | Some cl, Some cr => Some (1 + cl + cr)
              | _, _ => None
              end
          end
      end
  end.

Definition len (fuel : nat) (b : BST) : option Z :=
  count fuel (store b) (_root b).

End Tree.

Arguments Node : clear implicits.
Arguments BST : clear implicits.
Arguments locals : clear implicits.
Arguments reply : clear implicits.
Arguments error : clear implicits.
Arguments status : clear implicits.
Arguments task : clear implicits.
Arguments system : clear implicits.
Arguments action : clear implicits.
Arguments result : clear implicits.
Arguments outcome : clear implicits.

(** ** The tree a store represents

    Proof-side view of the pointer structure: [shape] is the tree of
    addresses and values hanging below a pointer, [repr] ties it to the
    store.  Order is phrased with the comparison the way [insert] consults
    it: [side d v x] says that [compare v x] answers and sends [v] to the
    left ([d = true], [cmp < 0]) or to the right of [x]. *)

Section Ghost.

Context {T E : Type}.
Variable compare : T -> T -> reply E.

Inductive shape := Leaf | Br (l : shape) (a : addr) (x : T) (r : shape).

Fixpoint addrs (t : shape) : list addr :=
  match t with
  | Leaf => []
  | Br l a _ r => addrs l ++ a :: addrs r
  end.

Fixpoint vals (t : shape) : list T :=
  match t with
  | Leaf => []
  | Br l _ x r => vals l ++ x :: vals r
  end.

Fixpoint height (t : shape) : nat :=
  match t with
  | Leaf => O
  | Br l _ _ r => S (Nat.max (height l) (height r))
  end.

Fixpoint repr (h : list (Node T)) (p : option addr) (t : shape) : Prop :=
  match t with
  | Leaf => p = None
  | Br l a x r =>
      p = Some a /\
      exists n, h !! a = Some n /\ value n = x /\
                repr h (left n) l /\ repr h (right n) r
  end.

Definition slot (d : bool) (n : Node T) : option addr :=
  if d then left n else right n.

Definition set_slot (d : bool) (n : Node T) (c : option addr) : Node T :=
  if d then set_left n c else set_right n c.

Definition snap (nd : Node T) : snapshot :=
  {| saved_version := version nd; saved_left := left nd;
     saved_right := right nd |}.

Definition attach_site (d : bool) : site :=
  if d then AttachedLeft else AttachedRight.

(** The store after [parent.left = new_node; parent.version += 1] (or the
    same on the right). *)
Definition attached (b : BST T) (p : addr) (pn : Node T) (d : bool) (v : T)
  : BST T :=
  set_store b
    (<[p := bump_version (set_slot d pn (Some (length (store b))))]> (store b)
       ++ [new_Node v]).

Definition side (d : bool) (v x : T) : Prop :=
  exists c, compare v x = Ret c /\ (c <? 0) = d.

Fixpoint ordered (t : shape) : Prop :=
  match t with
  | Leaf => True
  | Br l _ x r =>
      (forall y, y ∈ vals l -> side true y x) /\
      (forall y, y ∈ vals r -> side false y x) /\
      ordered l /\ ordered r
  end.

(** [fits v n t]: on the way from the root of [t] down to node [n], the
    value [v] is on the side of every ancestor on which [n] hangs. *)
Fixpoint fits (v : T) (n : addr) (t : shape) : Prop :=
  match t with
  | Leaf => True
  | Br l _ x r =>
      (n ∈ addrs l -> side true v x /\ fits v n l) /\
      (n ∈ addrs r -> side false v x /\ fits v n r)
  end.

Definition plug (c : addr) (v : T) (t : shape) : shape :=
  match t with
  | Leaf => Br Leaf c v Leaf
  | _ => t
  end.

(** Hang the fresh node [c] holding [v] into the empty [d]-slot of [p]. *)
Fixpoint graft (p : addr) (d : bool) (c : addr) (v : T) (t : shape) : shape :=
  match t with
  | Leaf => Leaf
  | Br l a x r =>
      if decide (a = p) then
        if d then Br (plug c v l) a x r else Br l a x (plug c v r)
      else Br (graft p d c v l) a x (graft p d c v r)
  end.

(** [contains] on the represented tree. *)
Fixpoint search (v : T) (t : shape) : result E bool :=
  match t with
  | Leaf => Value false
  | Br l _ x r =>
      match compare v x with
      | Exc e => Failure e
      | Ret cmp =>
          if cmp =? 0 then Value true
          else if cmp <? 0 then search v l else search v r
      end
  end.

Definition is_returned (k : task T E) : bool :=
  match t_status k with Returned _ => true | _ => false end.

Definition task_value (k : task T E) : T := l_value (t_locals k).

(** The values whose [insert] has returned. *)
Definition inserted (ks : list (task T E)) : list T :=
  task_value <$> filter (fun k => is_returned k = true) ks.

(** The values handed to [insert] over a schedule. *)
Definition spawned (sched : list (action T)) : list T :=
  omap (fun a => match a with Spawn v => Some v | Run _ => None end) sched.

(** How one node may differ between two states of the store: the value
    stays, a present child stays, and the version moves by one for each
    slot that went from absent to present.  A store steps to another when
    each of its nodes does and each node that is new there has stepped from
    the blank [Node(value)]. *)
Definition populated (o o' : option addr) : Z :=
  if is_None o && negb (is_None o') then 1 else 0.

Definition node_step (n n' : Node T) : Prop :=
  value n' = value n /\
  (forall c, left n = Some c -> left n' = Some c) /\
  (forall c, right n = Some c -> right n' = Some c) /\
  version n' = version n + populated (left n) (left n')
                         + populated (right n) (right n').

Definition store_step (h h' : list (Node T)) : Prop :=
  (forall a n, h !! a = Some n -> exists n', h' !! a = Some n' /\ node_step n n') /\
  (forall a n', h !! a = None -> h' !! a = Some n' ->
                node_step (new_Node (value n')) n').

Definition finished (k : task T E) : bool :=
  match t_status k with Returned _ | Raised _ => true | _ => false end.

(** A comparison that always answers, with the integer [cmp a b]. *)
Definition answering (cmp : T -> T -> Z) : T -> T -> reply E :=
  fun a b => Ret (cmp a b).

(** [stale b k]: task [k] is about to resume from a comparison that
    answered, and the node it compared against has changed version since
    the snapshot: the conflict of line 109. *)
Definition stale (b : BST T) (k : task T E) : bool :=
  match t_status k, pending_reply compare b (t_locals k) with
  | AwaitingCompare s, Some (Ret _) =>
      match node (t_locals k) ≫= (fun n => store b !! n) with
      | Some nd => negb (version nd =? saved_version s)
      | None => false
      end
  | _, _ => false
  end.

(** The retry counter of task [i], [0] before the task exists. *)
Definition retries_at (s : system T E) (i : nat) : Z :=
  match tasks s !! i with
  | Some k => retries (t_locals k)
  | None => 0
  end.

(** The number of conflicts task [i] runs into over a schedule. *)
Fixpoint conflicts (sched : list (action T)) (s : system T E) (i : nat) : Z :=
  match sched with
  | [] => 0
  | a :: sched' =>
      (match a with
       | Run j =>
           if decide (j = i) then
             match tasks s !! i with
             | Some k => if stale (tree s) k then 1 else 0
             | None => 0
             end
           else 0
       | Spawn _ => 0
       end) + conflicts sched' (exec_action compare s a) i
  end.

(** Task [i] is suspended in its comparison with node [n], holding a
    snapshot that is still current. *)
Definition fresh_at (s : system T E) (i : nat) (n : addr) : Prop :=
  exists l nd,
    tasks s !! i = Some {| t_status := AwaitingCompare (snap nd);
                           t_locals := l |} /\
    node l = Some n /\ store (tree s) !! n = Some nd.

(** Task [i] is over: it has returned or raised. *)
Definition task_finished (s : system T E) (i : nat) : Prop :=
  exists k, tasks s !! i = Some k /\ finished k = true.

(** What holds of a task between its turns. *)
Definition task_ok (b : BST T) (t : shape) (k : task T E) : Prop :=
  let l := t_locals k in
  match t_status k with
  | Fresh => retries l = 0
  | AwaitingCompare s =>
      0 <= retries l < _max_retries b /\
      exists n nd,
        node l = Some n /\ store b !! n = Some nd /\
        saved_version s <= version nd /\
        (version nd = saved_version s ->
         left nd = saved_left s /\ right nd = saved_right s) /\
        fits (l_value l) n t
  | Returned RootClaimed => retries l = 0
  | Returned RootInLoop => False
  | Returned _ => 0 <= retries l < _max_retries b
  | Raised RetryExhausted => retries l = Z.max 0 (_max_retries b)
  | Raised (CompareError _) => 0 <= retries l < _max_retries b
  | WaitingLock | Running | Stuck => False
  end.

Record Inv (s : system T E) (t : shape) : Prop := {
  inv_lock : _root_lock (tree s) = false;
  inv_repr : repr (store (tree s)) (_root (tree s)) t;
  inv_addrs : addrs t ≡ₚ seq 0 (length (store (tree s)));
  inv_vals : vals t ≡ₚ inserted (tasks s);
  inv_ordered : ordered t;
  inv_up : forall a n d c,
    store (tree s) !! a = Some n -> slot d n = Some c -> (a < c)%nat;
  inv_tasks : forall i k, tasks s !! i = Some k -> task_ok (tree s) t k
}.

End Ghost.

Arguments shape : clear implicits.

(** ** [CachedCompare] *)

Module Cached.
Section CachedCompare.

Context {T E : Type}.

(** Python's [id]: the identity token of an operand. *)
Variable ident : T -> Z.

(** The wrapped comparison, [self._compare]: it answers ([Ret]) or raises
    ([Exc]). *)
Variable compare : T -> T -> reply E.

(** The attributes of a [CachedCompare] object ([_lock] guards the two
    critical sections below and is free whenever a call is suspended). *)
Record CachedCompare := mkCached {
  _cache : gmap (Z * Z) Z;
  hits : Z;
  misses : Z
}.

(** [CachedCompare(compare)] *)
Definition Cached_init : CachedCompare :=
  {| _cache := ∅; hits := 0; misses := 0 |}.

(** Lines 178-187: the first critical section.  [Some r] is the early
    [return]; [None] falls through to the wrapped comparison. *)
Definition probe (c : CachedCompare) (a b : T) : option Z * CachedCompare :=
  let key := (ident a, ident b) in
  let rev_key := (ident b, ident a) in
  match _cache c !! key with
  | Some r =>
      (Some r, {| _cache := _cache c; hits := hits c + 1; misses := misses c |})
  | None =>
      match _cache c !! rev_key with
      | Some r =>
          (Some (- r),
           {| _cache := _cache c; hits := hits c + 1; misses := misses c |})
      | None => (None, c)
      end
  end.

(** Lines 191-193: the second critical section. *)
Definition record (c : CachedCompare) (a b : T) (result : Z) : CachedCompare :=
  {| _cache := <[(ident a, ident b) := result]> (_cache c);
     hits := hits c;
     misses := misses c + 1 |}.

(** A [CachedCompare] together with the number of times the wrapped
    function has been invoked (the [call_count] of the tests). *)
Record world := mkWorld { self : CachedCompare; call_count : Z }.

Definition world_init : world :=
  {| self := Cached_init; call_count := 0 |}.

(** [await cached(a, b)], run to completion before the next call starts.
    An exception of the wrapped comparison leaves line 189 at once: lines
    191-193 are skipped, nothing is recorded and no miss is counted. *)
Definition call (w : world) (a b : T) : reply E * world :=
  match probe (self w) a b with
  | (Some r, c) => (Ret r, {| self := c; call_count := call_count w |})
  | (None, c) =>
      match compare a b with
      | Ret result =>
          (Ret result, {| self := record c a b result;
                          call_count := call_count w + 1 |})
      | Exc e => (Exc e, {| self := c; call_count := call_count w + 1 |})
      end
  end.

(** A sequence of calls, one after the other (a caller that goes on after
    an exception). *)
Definition calls (qs : list (T * T)) (w : world) : world :=
  fold_left (fun w q => (call w q.1 q.2).2) qs w.

(** The key of a call, [(id(a), id(b))], and the keys asked about by a
    sequence of calls. *)
Definition key_of (q : T * T) : Z * Z := (ident q.1, ident q.2).

Definition asked (qs : list (T * T)) : list (Z * Z) := key_of <$> qs.

(** A cache never holds both orientations of a pair of distinct
    identities. *)
Definition one_way (m : gmap (Z * Z) Z) : Prop :=
  forall x y, x <> y -> is_Some (m !! (x, y)) -> m !! (y, x) = None.

(** The call was answered from the cache: one more hit, nothing else. *)
Definition hit (w w' : world) : Prop :=
  hits (self w') = hits (self w) + 1 /\
  misses (self w') = misses (self w) /\
  call_count w' = call_count w /\
  _cache (self w') = _cache (self w).

End CachedCompare.
End Cached.

(** The comparison of the test suite: [int_compare(a, b) = a - b]. *)
Definition int_compare (a b : Z) : reply Empty_set := Ret (a - b).

(** A comparison that never answers "equal". *)
Definition before_or_after (a b : Z) : Z := if a <? b then -1 else 1.

(** A comparison that fails on the operand [7]. *)
Definition picky_compare (a b : Z) : reply nat :=
  if b =? 7 then Exc 42%nat else Ret (a - b).

(** ** Overlapping calls of a [CachedCompare]

    [__call__] suspends once, in the [await self._compare(a, b)] of line
    189, between its two critical sections; other calls may take their
    turns there.  (The lock is free whenever a call is suspended: nothing
    is awaited inside the critical sections.) *)

Module Overlap.
Section Calls.

Context {T E : Type}.
Variable ident : T -> Z.
Variable compare : T -> T -> reply E.

(** Where a call stands: made but not yet run; suspended in the wrapped
    comparison; over, with its result and whether the cache gave it; over,
    with the exception of the wrapped comparison. *)
Inductive phase :=
  | Called
  | Delegated
  | Answered (r : Z) (from_cache : bool)
  | Failed (e : E).

Record pending := mkPending { fst_op : T; snd_op : T; at_phase : phase }.

(** The [CachedCompare], the number of times the wrapped function has been
    invoked, and the calls made so far. *)
Record state := mkState {
  memo : Cached.CachedCompare;
  invoked : Z;
  pendings : list pending
}.

Definition state_init : state :=
  {| memo := Cached.Cached_init; invoked := 0; pendings := [] |}.

Inductive event := Call (a b : T) | Turn (i : nat).

(** One turn of a call: lines 178-189 up to the [await], or lines 189-195
    from it.  When the wrapped comparison raises, the call is over at line
    189: lines 191-193 are not run. *)
Definition turn (w : state) (k : pending)
  : Cached.CachedCompare * Z * phase :=
  match at_phase k with
  | Called =>
      match Cached.probe ident (memo w) (fst_op k) (snd_op k) with
      | (Some r, c) => (c, invoked w, Answered r true)
      | (None, c) => (c, invoked w + 1, Delegated)
      end
  | Delegated =>
      match compare (fst_op k) (snd_op k) with
      | Ret result =>
          (Cached.record ident (memo w) (fst_op k) (snd_op k) result,
           invoked w, Answered result false)
      | Exc e => (memo w, invoked w, Failed e)
      end
  | Answered r c => (memo w, invoked w, Answered r c)
  | Failed e => (memo w, invoked w, Failed e)
  end.

Definition step (w : state) (e : event) : state :=
  match e with
  | Call a b =>
      {| memo := memo w; invoked := invoked w;
         pendings := pendings w ++ [mkPending a b Called] |}
  | Turn i =>
      match pendings w !! i with
      | None => w
      | Some k =>
          let '(c, n, ph) := turn w k in
          {| memo := c; invoked := n;
             pendings := <[i := mkPending (fst_op k) (snd_op k) ph]>
                           (pendings w) |}
      end
  end.

Definition run (es : list event) (w : state) : state := fold_left step es w.

(** How many of the calls satisfy [f]. *)
Definition tally (f : pending -> bool) (ps : list pending) : Z :=
  foldr (fun k acc => (if f k then 1 else 0) + acc) 0 ps.

Definition is_hit (k : pending) : bool :=
  match at_phase k with Answered _ true => true | _ => false end.
Definition is_miss (k : pending) : bool :=
  match at_phase k with Answered _ false => true | _ => false end.
Definition in_flight (k : pending) : bool :=
  match at_phase k with Delegated => true | _ => false end.
Definition has_raised (k : pending) : bool :=
  match at_phase k with Failed _ => true | _ => false end.

(** Every entry of the cache is an answer of the wrapped comparison on two
    operands with the identities of its key. *)
Definition genuine (m : gmap (Z * Z) Z) : Prop :=
  forall key r, m !! key = Some r ->
    exists x y, key = (ident x, ident y) /\ compare x y = Ret r.

(** The counters of the object count the calls that have returned; the
    wrapped function has been invoked once for each miss, each call in
    flight and each call that raised. *)
Definition balanced (w : state) : Prop :=
  Cached.hits (memo w) = tally is_hit (pendings w) /\
  Cached.misses (memo w) = tally is_miss (pendings w) /\
  invoked w = tally is_miss (pendings w) + tally in_flight (pendings w)
              + tally has_raised (pendings w).

(** Every answer, every exception and every cache entry comes from the
    wrapped comparison on operands with the identities asked about. *)
Definition traceable (w : state) : Prop :=
  genuine (Cached._cache (memo w)) /\
  forall i k, pendings w !! i = Some k ->
    match at_phase k with
    | Answered r c =>
        exists x y, ident x = ident (fst_op k) /\ ident y = ident (snd_op k) /\
          (compare x y = Ret r \/
           (c = true /\ exists r', compare y x = Ret r' /\ r = - r'))
    | Failed e => compare (fst_op k) (snd_op k) = Exc e
    | Called | Delegated => True
    end.

End Calls.

#[global] Arguments phase : clear implicits.
#[global] Arguments pending : clear implicits.
#[global] Arguments state : clear implicits.
#[global] Arguments event : clear implicits.
#[global] Arguments Called {E}.
#[global] Arguments Delegated {E}.
#[global] Arguments Answered {E} r from_cache.
#[global] Arguments Call {T} a b.
#[global] Arguments Turn {T} i.

End Overlap.

(** ** Calls made one at a time *)

Section Sequential.

Context {T E : Type}.
Variable compare : T -> T -> reply E.

(** [await tree.insert(v)] with no other call in flight: the call is made
    and given turn after turn; a tree of [n] nodes takes at most [n + 1] of
    them, and a turn given to a call that is over does nothing. *)
Definition insert_now (s : system T E) (v : T) : system T E :=
  exec compare
    (Spawn v :: replicate (S (length (store (tree s))))
                          (Run (length (tasks s))))
    s.

(** [for v in vs: await tree.insert(v)] *)
Definition insert_each (vs : list T) (s : system T E) : system T E :=
  fold_left insert_now vs s.

End Sequential.

(** ** The recursion of [to_list], call by call

    [inorder] above spends its fuel on the nodes only, not on the calls
    made with an absent child (which return at line 138).  Here every call
    of the nested function is counted: [limit] is the number of calls of
    [inorder] that may be nested in one another before the interpreter
    gives up. *)
Fixpoint inorder_calls {T : Type} (limit : nat) (h : list (Node T))
    (nd : option addr) (result : list T) : option (list T) :=
  match limit with
  | O => None
  | S limit' =>
      match nd with
      | None => Some result
      | Some n =>
          match h !! n with
          | None => None
          | Some x =>
              match inorder_calls limit' h (left x) result with
              | None => None
              | Some result1 =>
                  inorder_calls limit' h (right x) (result1 ++ [value x])
              end
          end
      end
  end.

Definition to_list_calls {T : Type} (limit : nat) (b : BST T)
  : option (list T) :=
  inorder_calls limit (store b) (_root b) [].

(** Pairs compared by their first component only: distinct values may
    compare equal. *)
Definition key_compare (a b : Z * Z) : Z := a.1 - b.1.

(** Reference functions on lists and trees: insertion of [v] into a list
    in front of the first element it precedes (insertion sort, which keeps
    values that compare equal in their order of arrival), and insertion
    into a search tree at the leaf the search for [v] ends in. *)
Fixpoint insort {T : Type} (cmp : T -> T -> Z) (v : T) (l : list T) : list T :=
  match l with
  | [] => [v]
  | y :: l' => if cmp v y <? 0 then v :: y :: l' else y :: insort cmp v l'
  end.

Fixpoint tinsert {T : Type} (cmp : T -> T -> Z) (c : addr) (v : T)
    (t : shape T) : shape T :=
  match t with
  | Leaf => Br Leaf c v Leaf
  | Br l a x r =>
      if cmp v x <? 0 then Br (tinsert cmp c v l) a x r
      else Br l a x (tinsert cmp c v r)
  end.

(** The tree without a left child anywhere: the values of [vs] down the
    right, at the addresses [c], [c + 1], ... *)
Fixpoint spine {T : Type} (c : addr) (vs : list T) : shape T :=
  match vs with
  | [] => Leaf
  | v :: vs' => Br Leaf c v (spine (S c) vs')
  end.

(** * Facts *)

(** ** Stores and the trees they represent *)

Section ShapeFacts.

Context {T : Type}.

Implicit Types (h : list (Node T)) (t : shape T) (p : option addr).
Implicit Types (n nd pn : Node T) (a c m : addr) (v w x : T) (d : bool).

Lemma repr_None h t : repr h None t -> t = Leaf.
Proof. destruct t; simpl; [done|]. by intros [? _]. Qed.

Lemma repr_Some h a t :
  repr h (Some a) t ->
  exists l x r n, t = Br l a x r /\ h !! a = Some n /\ value n = x /\
                  repr h (left n) l /\ repr h (right n) r.
Proof.
  destruct t as [|l a' x r]; simpl; [done|].
  intros (Heq & n & Hn & Hx & Hl & Hr). simplify_eq. by exists l, (value n), r, n.
Qed.

Lemma repr_lt h p t a : repr h p t -> a ∈ addrs t -> (a < length h)%nat.
Proof.
  revert p. induction t as [|l IHl a' x r IHr]; simpl; intros p Hrep Ha.
  - by apply elem_of_nil in Ha.
  - destruct Hrep as (_ & n & Hn & _ & Hl & Hr).
    rewrite elem_of_app, elem_of_cons in Ha.
    destruct Ha as [Ha|[->|Ha]]; [by eapply IHl| |by eapply IHr].
    by eapply lookup_lt_Some.
Qed.

(** Writing to a node outside [t] and allocating behind the store leave the
    representation of [t] alone. *)
Lemma repr_frame h p t a n' tl :
  repr h p t -> a ∉ addrs t -> repr (<[a := n']> h ++ tl) p t.
Proof.
  revert p. induction t as [|l IHl a' x r IHr]; simpl; intros p Hrep Ha; [done|].
  destruct Hrep as (-> & n & Hn & Hx & Hl & Hr).
  rewrite elem_of_app, elem_of_cons in Ha.
  split; [done|]. exists n.
  split; [|split; [done|split; [apply IHl|apply IHr]; tauto]].
  apply lookup_app_l_Some. rewrite list_lookup_insert_ne; [done|]. intros ->; tauto.
Qed.

Lemma graft_notin a d c v t : a ∉ addrs t -> graft a d c v t = t.
Proof.
  induction t as [|l IHl a' x r IHr]; simpl; [done|].
  rewrite elem_of_app, elem_of_cons. intros Ha.
  destruct (decide (a' = a)) as [->|_]; [tauto|].
  rewrite IHl, IHr; tauto.
Qed.

Lemma slot_set_slot d n (c : option addr) : slot d (bump_version (set_slot d n c)) = c.
Proof. by destruct d. Qed.

Lemma slot_set_slot_other d n (c : option addr) :
  slot (negb d) (bump_version (set_slot d n c)) = slot (negb d) n.
Proof. by destruct d. Qed.

Lemma value_set_slot d n (c : option addr) : value (bump_version (set_slot d n c)) = value n.
Proof. by destruct d. Qed.

Lemma version_set_slot d n (c : option addr) :
  version (bump_version (set_slot d n c)) = version n + 1.
Proof. by destruct d. Qed.

(** The store after a successful attachment represents the grafted tree. *)
Lemma repr_graft h p t a pn d v :
  repr h p t -> NoDup (addrs t) -> a ∈ addrs t ->
  h !! a = Some pn -> slot d pn = None ->
  repr (<[a := bump_version (set_slot d pn (Some (length h)))]> h
          ++ [new_Node v])
       p (graft a d (length h) v t).
Proof.
  intros Hrep Hnd Ha Hpn Hslot. revert p Hrep Hnd Ha.
  induction t as [|l IHl a' x r IHr]; simpl; intros p Hrep Hnd Ha; [done|].
  destruct Hrep as (-> & n & Hn & Hx & Hl & Hr).
  apply NoDup_app in Hnd as (Hndl & Hdisj & Hndr).
  apply NoDup_cons in Hndr as (Har & Hndr).
  assert (Hal : a' ∉ addrs l).
  { intros Hin. apply (Hdisj _ Hin). apply elem_of_cons; by left. }
  assert (Hnew : forall k, (<[a := k]> h ++ [new_Node v]) !! length h
                           = Some (new_Node v)).
  { intros k. rewrite lookup_app_r; rewrite length_insert; [|done].
    by rewrite Nat.sub_diag. }
  destruct (decide (a' = a)) as [->|Hne].
  - assert (n = pn) as -> by congruence.
    assert (Hlook : (<[a := bump_version (set_slot d pn (Some (length h)))]> h
                       ++ [new_Node v]) !! a
                    = Some (bump_version (set_slot d pn (Some (length h))))).
    { apply lookup_app_l_Some, list_lookup_insert_eq. by eapply lookup_lt_Some. }
    destruct d; simpl in Hslot.
    + rewrite Hslot in Hl. apply repr_None in Hl as ->.
      split; [done|]. eexists. split; [exact Hlook|].
      split; [done|]. split; simpl.
      * split; [done|]. exists (new_Node v). by rewrite Hnew.
      * by apply repr_frame.
    + rewrite Hslot in Hr. apply repr_None in Hr as ->.
      split; [done|]. eexists. split; [exact Hlook|].
      split; [done|]. split; simpl.
      * by apply repr_frame.
      * split; [done|]. exists (new_Node v). by rewrite Hnew.
  - split; [done|]. exists n.
    rewrite elem_of_app, elem_of_cons in Ha.
    split; [|split; [done|split]].
    + apply lookup_app_l_Some. by rewrite list_lookup_insert_ne.
    + destruct (decide (a ∈ addrs l)) as [Hin|Hnin]; [by apply IHl|].
      rewrite graft_notin by done. by apply repr_frame.
    + destruct (decide (a ∈ addrs r)) as [Hin|Hnin]; [by apply IHr|].
      rewrite graft_notin by done. by apply repr_frame.
Qed.

Lemma perm_hoist {A} (l r : list A) (a c : A) :
  l ++ a :: c :: r ≡ₚ c :: l ++ a :: r.
Proof.
  symmetry. etrans; [apply Permutation_middle|].
  apply Permutation_app_head, perm_swap.
Qed.

Lemma graft_perm h p t a pn d c v :
  repr h p t -> NoDup (addrs t) -> a ∈ addrs t ->
  h !! a = Some pn -> slot d pn = None ->
  addrs (graft a d c v t) ≡ₚ c :: addrs t /\
  vals (graft a d c v t) ≡ₚ v :: vals t.
Proof.
  intros Hrep Hnd Ha Hpn Hslot. revert p Hrep Hnd Ha.
  induction t as [|l IHl a' x r IHr]; simpl; intros p Hrep Hnd Ha.
  { by apply elem_of_nil in Ha. }
  destruct Hrep as (-> & n & Hn & Hx & Hl & Hr).
  apply NoDup_app in Hnd as (Hndl & Hdisj & Hndr).
  apply NoDup_cons in Hndr as (Har & Hndr).
  destruct (decide (a' = a)) as [->|Hne].
  - assert (n = pn) as -> by congruence. destruct d; simpl in *.
    + rewrite Hslot in Hl. apply repr_None in Hl as ->. by simpl.
    + rewrite Hslot in Hr. apply repr_None in Hr as ->. simpl.
      split; apply perm_hoist.
  - rewrite elem_of_app, elem_of_cons in Ha.
    destruct Ha as [Ha|[->|Ha]]; [|done|].
    + assert (a ∉ addrs r).
      { intros Hin. apply (Hdisj _ Ha). apply elem_of_cons; by right. }
      rewrite (graft_notin a d c v r) by done. simpl.
      by destruct (IHl _ Hl Hndl Ha) as [-> ->].
    + assert (a ∉ addrs l).
      { intros Hin. apply (Hdisj _ Hin). apply elem_of_cons; by right. }
      rewrite (graft_notin a d c v l) by done. simpl.
      destruct (IHr _ Hr Hndr Ha) as [-> ->].
      split; apply perm_hoist.
Qed.

Lemma root_in_addrs h a t : repr h (Some a) t -> a ∈ addrs t.
Proof.
  intros (l & x & r & n & -> & _)%repr_Some. simpl.
  apply elem_of_app; right. apply elem_of_cons; by left.
Qed.

Lemma child_in_addrs h p t a n d c :
  repr h p t -> a ∈ addrs t -> h !! a = Some n -> slot d n = Some c ->
  c ∈ addrs t.
Proof.
  intros Hrep Ha Hn Hslot. revert p Hrep Ha.
  induction t as [|l IHl a' x r IHr]; simpl; intros p Hrep Ha.
  { by apply elem_of_nil in Ha. }
  destruct Hrep as (_ & n' & Hn' & _ & Hl & Hr).
  rewrite elem_of_app, elem_of_cons in Ha. rewrite elem_of_app, elem_of_cons.
  destruct Ha as [Ha|[->|Ha]];
    [left; eapply IHl; eauto| |right; right; eapply IHr; eauto].
  assert (n' = n) as -> by congruence.
  destruct d; simpl in Hslot.
  - rewrite Hslot in Hl. left. by eapply root_in_addrs.
  - rewrite Hslot in Hr. right; right. by eapply root_in_addrs.
Qed.

Lemma NoDup_addrs_Br l a x r :
  NoDup (addrs (Br l a x r)) ->
  NoDup (addrs l) /\ NoDup (addrs r) /\ (a ∉ addrs l) /\ (a ∉ addrs r) /\
  (forall m, m ∈ addrs l -> m ∈ addrs r -> False).
Proof.
  simpl. intros (Hl & Hdisj & Hr)%NoDup_app.
  apply NoDup_cons in Hr as (Har & Hr).
  split_and!; [done|done| |done|].
  - intros Hin. apply (Hdisj _ Hin). apply elem_of_cons; by left.
  - intros m Hml Hmr. apply (Hdisj _ Hml). apply elem_of_cons; by right.
Qed.

Lemma addrs_plug_inv c v t m : m ∈ addrs (plug c v t) -> m = c \/ m ∈ addrs t.
Proof.
  destruct t; simpl; [|by right].
  intros ?%list_elem_of_singleton. by left.
Qed.

Lemma vals_plug_inv c v t y : y ∈ vals (plug c v t) -> y = v \/ y ∈ vals t.
Proof.
  destruct t; simpl; [|by right].
  intros ?%list_elem_of_singleton. by left.
Qed.

Lemma addrs_graft_inv a d c v t m :
  m ∈ addrs (graft a d c v t) -> m = c \/ m ∈ addrs t.
Proof.
  induction t as [|l IHl a' x r IHr]; simpl; [by right|].
  destruct (decide (a' = a)) as [->|_]; [destruct d|]; simpl;
    rewrite !elem_of_app, !elem_of_cons;
    intros [Hm|[->|Hm]]; auto;
    first [apply addrs_plug_inv in Hm|apply IHl in Hm|apply IHr in Hm];
    tauto.
Qed.

Lemma vals_graft_inv a d c v t y :
  y ∈ vals (graft a d c v t) -> y = v \/ y ∈ vals t.
Proof.
  induction t as [|l IHl a' x r IHr]; simpl; [by right|].
  destruct (decide (a' = a)) as [->|_]; [destruct d|]; simpl;
    rewrite !elem_of_app, !elem_of_cons;
    intros [Hm|[->|Hm]]; auto;
    first [apply vals_plug_inv in Hm|apply IHl in Hm|apply IHr in Hm];
    tauto.
Qed.

Lemma height_le_size t : (height t <= length (addrs t))%nat.
Proof.
  induction t as [|l IHl a x r IHr]; simpl; [done|].
  rewrite length_app. simpl. lia.
Qed.

Lemma inorder_repr h p t fuel acc :
  repr h p t -> (height t <= fuel)%nat ->
  inorder fuel h p acc = Some (acc ++ vals t).
Proof.
  revert p fuel acc.
  induction t as [|l IHl a x r IHr]; simpl; intros p fuel acc Hrep Hfuel.
  - subst p. rewrite app_nil_r. by destruct fuel.
  - destruct Hrep as (-> & n & Hn & Hx & Hl & Hr).
    destruct fuel as [|fuel]; [lia|]. simpl. rewrite Hn.
    rewrite (IHl _ fuel acc Hl) by lia.
    rewrite (IHr _ fuel _ Hr) by lia.
    by rewrite Hx, <- !app_assoc.
Qed.

Lemma count_repr h p t fuel :
  repr h p t -> (height t <= fuel)%nat ->
  count fuel h p = Some (Z.of_nat (length (addrs t))).
Proof.
  revert p fuel.
  induction t as [|l IHl a x r IHr]; simpl; intros p fuel Hrep Hfuel.
  - subst p. by destruct fuel.
  - destruct Hrep as (-> & n & Hn & Hx & Hl & Hr).
    destruct fuel as [|fuel]; [lia|]. simpl. rewrite Hn.
    rewrite (IHl _ fuel Hl) by lia. rewrite (IHr _ fuel Hr) by lia.
    f_equal. rewrite length_app. simpl. lia.
Qed.

End ShapeFacts.

(** ** Order along the paths of the tree *)

Section OrderFacts.

Context {T E : Type}.
Variable compare : T -> T -> reply E.

Implicit Types (h : list (Node T)) (t : shape T) (p : option addr).
Implicit Types (n nd pn : Node T) (a c m : addr) (v w x : T) (d : bool).

Lemma fits_root h a t v : repr h (Some a) t -> NoDup (addrs t) -> fits compare v a t.
Proof.
  intros (l & x & r & n & -> & _)%repr_Some Hnd.
  apply NoDup_addrs_Br in Hnd as (_ & _ & Hl & Hr & _).
  simpl. split; intros; tauto.
Qed.

(** A task that descends from [a] to its child [c] on the side its
    comparison chose still fits. *)
Lemma fits_child h p t a n d c v :
  repr h p t -> NoDup (addrs t) -> a ∈ addrs t ->
  h !! a = Some n -> slot d n = Some c ->
  side compare d v (value n) -> fits compare v a t -> fits compare v c t.
Proof.
  intros Hrep Hnd Ha Hn Hslot Hside. revert p Hrep Hnd Ha.
  induction t as [|l IHl a' x r IHr]; intros p Hrep Hnd Ha Hfit; [done|].
  pose proof (NoDup_addrs_Br _ _ _ _ Hnd) as (Hndl & Hndr & Hal & Har & Hdisj).
  destruct Hrep as (_ & n' & Hn' & Hx & Hl & Hr).
  simpl in Ha, Hfit |- *. rewrite elem_of_app, elem_of_cons in Ha.
  destruct Hfit as [Hfl Hfr].
  destruct Ha as [Ha|[->|Ha]].
  - assert (c ∈ addrs l) by (by eapply child_in_addrs).
    split; [|intros; exfalso; eauto].
    intros _. destruct (Hfl Ha). split; [done|]. by eapply IHl.
  - assert (n' = n) as -> by congruence. subst x.
    destruct d; simpl in Hslot.
    + rewrite Hslot in Hl. pose proof (root_in_addrs _ _ _ Hl).
      split; [|intros; exfalso; eauto].
      intros _. split; [done|]. by eapply fits_root.
    + rewrite Hslot in Hr. pose proof (root_in_addrs _ _ _ Hr).
      split; [intros; exfalso; eauto|].
      intros _. split; [done|]. by eapply fits_root.
  - assert (c ∈ addrs r) by (by eapply child_in_addrs).
    split; [intros; exfalso; eauto|].
    intros _. destruct (Hfr Ha). split; [done|]. by eapply IHr.
Qed.

Lemma fits_plug c v t w m : m <> c -> fits compare w m t -> fits compare w m (plug c v t).
Proof.
  intros Hm. destruct t; [|done]. intros _. simpl.
  split; intros []%elem_of_nil.
Qed.

(** Tasks waiting elsewhere are not disturbed by an attachment. *)
Lemma fits_graft a d c v t w m :
  m <> c -> fits compare w m t -> fits compare w m (graft a d c v t).
Proof.
  intros Hm. induction t as [|l IHl a' x r IHr]; simpl; [done|].
  intros [Hfl Hfr].
  destruct (decide (a' = a)) as [->|_]; [destruct d|]; simpl.
  - split; [|done]. intros [?|Hin]%addrs_plug_inv; [done|].
    destruct (Hfl Hin). split; [done|]. by apply fits_plug.
  - split; [done|]. intros [?|Hin]%addrs_plug_inv; [done|].
    destruct (Hfr Hin). split; [done|]. by apply fits_plug.
  - split.
    + intros [?|Hin]%addrs_graft_inv; [done|].
      destruct (Hfl Hin). split; [done|]. by apply IHl.
    + intros [?|Hin]%addrs_graft_inv; [done|].
      destruct (Hfr Hin). split; [done|]. by apply IHr.
Qed.

Lemma ordered_plug c v t : ordered compare t -> ordered compare (plug c v t).
Proof.
  destruct t; [|done]. intros _. simpl.
  split_and!; try done; intros ? []%elem_of_nil.
Qed.

(** Attaching [v] below [a], on the side its comparison with [a] chose,
    keeps the tree ordered when [v] fitted at [a]. *)
Lemma ordered_graft h p t a pn d c v :
  repr h p t -> NoDup (addrs t) -> a ∈ addrs t -> h !! a = Some pn ->
  ordered compare t -> fits compare v a t -> side compare d v (value pn) ->
  ordered compare (graft a d c v t).
Proof.
  intros Hrep Hnd Ha Hpn Hord Hfit Hside. revert p Hrep Hnd Ha Hord Hfit.
  induction t as [|l IHl a' x r IHr]; intros p Hrep Hnd Ha Hord Hfit; [done|].
  pose proof (NoDup_addrs_Br _ _ _ _ Hnd) as (Hndl & Hndr & Hal & Har & Hdisj).
  destruct Hrep as (_ & n' & Hn' & Hx & Hl & Hr).
  destruct Hord as (Hol & Hor & Hordl & Hordr). destruct Hfit as [Hfl Hfr].
  simpl. destruct (decide (a' = a)) as [->|Hne].
  - assert (n' = pn) as -> by congruence. subst x.
    destruct d; simpl; (split_and!; [| | |]); try done;
      try (by apply ordered_plug);
      intros y [->|Hy]%vals_plug_inv; auto.
  - simpl in Ha. rewrite elem_of_app, elem_of_cons in Ha.
    destruct Ha as [Ha|[->|Ha]]; [|done|].
    + assert (a ∉ addrs r) by (intros ?; eauto).
      rewrite (graft_notin a d c v r) by done.
      destruct (Hfl Ha) as [Hs Hf]. simpl. split_and!; [|done| |done].
      * intros y [->|Hy]%vals_graft_inv; auto.
      * by eapply IHl.
    + assert (a ∉ addrs l) by (intros ?; eauto).
      rewrite (graft_notin a d c v l) by done.
      destruct (Hfr Ha) as [Hs Hf]. simpl. split_and!; [done| |done|].
      * intros y [->|Hy]%vals_graft_inv; auto.
      * by eapply IHr.
Qed.

Lemma contains_repr h p t fuel v :
  repr h p t -> (height t <= fuel)%nat ->
  contains_from compare fuel h p v = Some (search compare v t).
Proof.
  revert p fuel.
  induction t as [|l IHl a x r IHr]; simpl; intros p fuel Hrep Hfuel.
  - subst p. by destruct fuel.
  - destruct Hrep as (-> & n & Hn & Hx & Hl & Hr).
    destruct fuel as [|fuel]; [lia|]. simpl. rewrite Hn, Hx.
    destruct (compare v x) as [cmp|e]; [|done].
    destruct (cmp =? 0); [done|].
    destruct (cmp <? 0); [apply IHl|apply IHr]; (done || lia).
Qed.

End OrderFacts.

(** ** One turn of [insert] *)

Section InsertFacts.

Context {T E : Type}.

Implicit Types (b : BST T) (l : locals T) (k : task T E).

(** A pass that ends in [Running] is the restart of lines 98-101. *)
Lemma loop_body_Running b l b' l' :
  loop_body (E := E) b l = (b', l', Running) ->
  b' = b /\ l' = restart b l /\ node l = None /\ is_Some (parent l).
Proof.
  unfold loop_body. intros H.
  destruct (node l) as [n|].
  { destruct (store b !! n); simplify_eq. }
  destruct (parent l) as [p|]; [|simplify_eq].
  destruct (store b !! p) as [pn|]; [|simplify_eq].
  destruct (go_left l);
    match type of H with (if ?c then _ else _) = _ => destruct c end;
    simplify_eq; eauto.
Qed.

Lemma loop_body_parent_None b l :
  parent l = None -> (loop_body (E := E) b l).2 <> Running.
Proof.
  intros Hp Hrun. destruct (loop_body b l) as [[b' l'] st] eqn:Hlb.
  simpl in Hrun. subst st.
  apply loop_body_Running in Hlb as (_ & _ & _ & [p Hp']). congruence.
Qed.

(** Two passes are all the loop ever makes between suspension points. *)
Lemma insert_loop_fuel fuel b l :
  insert_loop (E := E) (S (S fuel)) b l = insert_loop loop_fuel b l.
Proof.
  unfold loop_fuel. cbn [insert_loop].
  destruct (retries l <? _max_retries b); [|done].
  destruct (loop_body b l) as [[b1 l1] st1] eqn:H1.
  destruct st1; try done.
  apply loop_body_Running in H1 as (-> & -> & _ & _).
  destruct (retries (restart b l) <? _max_retries b); [|done].
  destruct (loop_body b (restart b l)) as [[b2 l2] st2] eqn:H2.
  destruct st2; try done.
  by apply loop_body_Running in H2 as (_ & _ & _ & [p Hp]).
Qed.

Lemma insert_loop_not_Running b l :
  (insert_loop (E := E) loop_fuel b l).2 <> Running.
Proof.
  unfold loop_fuel. cbn [insert_loop].
  destruct (retries l <? _max_retries b); [|done].
  destruct (loop_body b l) as [[b1 l1] st1] eqn:H1.
  destruct st1; try done.
  apply loop_body_Running in H1 as (-> & -> & _ & _).
  destruct (retries (restart b l) <? _max_retries b); [|done].
  destruct (loop_body b (restart b l)) as [[b2 l2] st2] eqn:H2.
  destruct st2; try done.
  by apply loop_body_Running in H2 as (_ & _ & _ & [p Hp]).
Qed.

(** At a present node the loop snapshots it and suspends in the
    comparison, budget permitting. *)
Lemma insert_loop_at_node b l n nd :
  node l = Some n -> store b !! n = Some nd ->
  insert_loop (E := E) loop_fuel b l
  = if retries l <? _max_retries b
    then (b, l, AwaitingCompare (snap nd))
    else (b, l, Raised RetryExhausted).
Proof.
  intros Hn Hnd. unfold loop_fuel. cbn [insert_loop].
  destruct (retries l <? _max_retries b); [|done].
  unfold loop_body. by rewrite Hn, Hnd.
Qed.

(** At an absent node below [p], with the slot still empty, the loop
    attaches and returns, budget permitting. *)
Lemma insert_loop_attach b l p pn :
  node l = None -> parent l = Some p -> store b !! p = Some pn ->
  slot (go_left l) pn = None ->
  insert_loop (E := E) loop_fuel b l
  = if retries l <? _max_retries b
    then (attached b p pn (go_left l) (l_value l), l,
          Returned (attach_site (go_left l)))
    else (b, l, Raised RetryExhausted).
Proof.
  intros Hn Hp Hpn Hslot. unfold loop_fuel. cbn [insert_loop].
  destruct (retries l <? _max_retries b); [|done].
  unfold loop_body. rewrite Hn, Hp, Hpn, Z.eqb_refl.
  destruct (go_left l); simpl in Hslot; by rewrite Hslot.
Qed.

Lemma inserted_app (ks ks' : list (task T E)) :
  inserted (ks ++ ks') = inserted ks ++ inserted ks'.
Proof. unfold inserted. by rewrite filter_app, fmap_app. Qed.

Lemma inserted_insert (ks : list (task T E)) i k k' :
  ks !! i = Some k -> is_returned k = false ->
  inserted (<[i := k']> ks)
  ≡ₚ (if is_returned k' then [task_value k'] else []) ++ inserted ks.
Proof.
  revert i. induction ks as [|k0 ks IH]; intros [|i] Hk Hnr; simplify_eq/=.
  - unfold inserted. rewrite !filter_cons.
    destruct (decide (is_returned k = true)); [congruence|].
    destruct (is_returned k'), (decide _); simpl; congruence || done.
  - specialize (IH _ Hk Hnr). unfold inserted in *. rewrite !filter_cons.
    destruct (decide (is_returned k0 = true)); [|done].
    rewrite !fmap_cons, IH. apply Permutation_middle.
Qed.

End InsertFacts.

(** ** The invariant of the event loop *)

Section Invariant.

#[local] Arguments insert_loop : simpl never.

Context {T E : Type}.
Variable compare : T -> T -> reply E.

Implicit Types (b : BST T) (l : locals T) (k : task T E) (s : system T E).
Implicit Types (t : shape T).

Lemma inv_NoDup s t : Inv compare s t -> NoDup (addrs t).
Proof. intros H. rewrite (inv_addrs _ _ _ H). apply NoDup_seq. Qed.

Lemma inv_addr_in s t a :
  Inv compare s t -> a ∈ addrs t <-> (a < length (store (tree s)))%nat.
Proof. intros H. rewrite (inv_addrs _ _ _ H), elem_of_seq. lia. Qed.

Lemma inv_lookup_in s t a n :
  Inv compare s t -> store (tree s) !! a = Some n -> a ∈ addrs t.
Proof. intros H Hn. apply (inv_addr_in _ _ _ H). by eapply lookup_lt_Some. Qed.

(** Tasks that are not taking the turn keep what they know when another
    task attaches a node. *)
Lemma task_ok_attached b t k p pn d v :
  store b !! p = Some pn ->
  task_ok compare b t k ->
  task_ok compare (attached b p pn d v) (graft p d (length (store b)) v t) k.
Proof.
  intros Hpn. unfold task_ok. destruct (t_status k) as [| | |s0|st|er|]; try done.
  intros (Hret & n & nd & Hn & Hnd & Hver & Hsame & Hfit).
  assert (Hfit' : fits compare (l_value (t_locals k)) n
                    (graft p d (length (store b)) v t)).
  { apply fits_graft; [|done]. apply lookup_lt_Some in Hnd. lia. }
  split; [done|]. destruct (decide (n = p)) as [->|Hne].
  - assert (nd = pn) as -> by congruence.
    exists p, (bump_version (set_slot d pn (Some (length (store b))))).
    split_and!; [done| | | |done].
    + simpl. apply lookup_app_l_Some, list_lookup_insert_eq.
      by eapply lookup_lt_Some.
    + rewrite version_set_slot. lia.
    + rewrite version_set_slot. lia.
  - exists n, nd. split_and!; try done.
    simpl. apply lookup_app_l_Some. by rewrite list_lookup_insert_ne.
Qed.

(** A turn that leaves the tree alone and does not return. *)
Lemma inv_park s t i k k' :
  Inv compare s t -> tasks s !! i = Some k -> is_returned k = false ->
  task_ok compare (tree s) t k' -> is_returned k' = false ->
  Inv compare {| tree := tree s; tasks := <[i := k']> (tasks s) |} t.
Proof.
  intros [Hlock Hrep Haddrs Hvals Hord Hup Htasks] Hk Hnr Hok' Hnr'.
  constructor; simpl; try done.
  - rewrite (inserted_insert _ _ _ _ Hk Hnr), Hnr'. by simpl.
  - intros j kj [[-> [-> _]]|[_ Hj]]%list_lookup_insert_Some; eauto.
Qed.

(** A turn that attaches a node and returns. *)
Lemma inv_attach s t i k l p pn :
  Inv compare s t -> tasks s !! i = Some k -> is_returned k = false ->
  store (tree s) !! p = Some pn -> slot (go_left l) pn = None ->
  fits compare (l_value l) p t ->
  side compare (go_left l) (l_value l) (value pn) ->
  0 <= retries l < _max_retries (tree s) ->
  Inv compare
    {| tree := attached (tree s) p pn (go_left l) (l_value l);
       tasks := <[i := {| t_status := Returned (attach_site (go_left l));
                          t_locals := l |}]> (tasks s) |}
    (graft p (go_left l) (length (store (tree s))) (l_value l) t).
Proof.
  intros HInv Hk Hnr Hpn Hslot Hfit Hside Hret.
  pose proof (inv_NoDup _ _ HInv) as Hnd.
  pose proof (inv_lookup_in _ _ _ _ HInv Hpn) as Hp.
  destruct HInv as [Hlock Hrep Haddrs Hvals Hord Hup Htasks].
  destruct (graft_perm _ _ _ _ _ _ (length (store (tree s))) (l_value l)
              Hrep Hnd Hp Hpn Hslot) as [Hpa Hpv].
  constructor; simpl.
  - done.
  - by apply repr_graft.
  - rewrite Hpa, Haddrs, length_app, length_insert. simpl.
    rewrite Nat.add_1_r, seq_S. simpl. apply Permutation_cons_append.
  - rewrite Hpv, (inserted_insert _ _ _ _ Hk Hnr), Hvals. by simpl.
  - by eapply ordered_graft.
  - intros a n d c Ha Hc.
    apply lookup_app_Some in Ha as [Ha|[_ Ha]].
    + apply list_lookup_insert_Some in Ha as [(-> & <- & Hlt)|[Hne Ha]];
        [|by eapply Hup].
      destruct (go_left l), d; simpl in Hc; simplify_eq;
        first [lia|by apply (Hup _ _ true _ Hpn)|by apply (Hup _ _ false _ Hpn)].
    + apply list_lookup_singleton_Some in Ha as [_ <-]. by destruct d.
  - intros j kj [[-> [<- _]]|[_ Hj]]%list_lookup_insert_Some.
    + unfold task_ok. simpl. by destruct (go_left l).
    + apply task_ok_attached; eauto.
Qed.

(** The first [insert] claims the root of the empty tree. *)
Lemma inv_claim s t i k l b' :
  Inv compare s t -> tasks s !! i = Some k -> is_returned k = false ->
  _root (tree s) = None -> retries l = 0 ->
  store b' = store (tree s) ++ [new_Node (l_value l)] ->
  _root b' = Some (length (store (tree s))) ->
  _max_retries b' = _max_retries (tree s) -> _root_lock b' = false ->
  Inv compare
    {| tree := b';
       tasks := <[i := {| t_status := Returned RootClaimed;
                          t_locals := l |}]> (tasks s) |}
    (Br Leaf O (l_value l) Leaf).
Proof.
  intros [Hlock Hrep Haddrs Hvals Hord Hup Htasks] Hk Hnr Hroot Hret Hst Hrt Hmax Hlk.
  rewrite Hroot in Hrep. apply repr_None in Hrep as ->. simpl in *.
  symmetry in Haddrs. apply Permutation_nil_r in Haddrs.
  destruct (store (tree s)) as [|? ?] eqn:Hstore; [|done]. simpl in *.
  constructor; simpl.
  - done.
  - rewrite Hrt, Hst. split; [done|]. by exists (new_Node (l_value l)).
  - by rewrite Hst.
  - rewrite (inserted_insert _ _ _ _ Hk Hnr), <- Hvals. by simpl.
  - split_and!; try done; intros ? []%elem_of_nil.
  - intros a n d c Ha Hc. rewrite Hst in Ha.
    apply list_lookup_singleton_Some in Ha as [_ <-]. by destruct d.
  - intros j kj [[-> [<- _]]|[_ Hj]]%list_lookup_insert_Some; [done|].
    specialize (Htasks _ _ Hj). unfold task_ok in *. rewrite Hmax.
    destruct (t_status kj); try done.
    destruct Htasks as (_ & n & nd & _ & Hnd & _). by rewrite Hstore in Hnd.
Qed.

(** After a trusted comparison the task steps to the snapshotted child:
    it parks there or, the child being absent, attaches. *)
Lemma inv_descend s t i k l n nd b' l' st' :
  Inv compare s t -> tasks s !! i = Some k -> is_returned k = false ->
  store (tree s) !! n = Some nd -> parent l = Some n ->
  node l = slot (go_left l) nd ->
  0 <= retries l < _max_retries (tree s) ->
  fits compare (l_value l) n t ->
  side compare (go_left l) (l_value l) (value nd) ->
  insert_loop loop_fuel (tree s) l = (b', l', st') ->
  l' = l /\
  exists t', Inv compare
    {| tree := b'; tasks := <[i := {| t_status := st'; t_locals := l' |}]> (tasks s) |}
    t'.
Proof.
  intros HInv Hk Hnr Hnd Hpar Hnode Hret Hfit Hside Hloop.
  assert (Hguard : (retries l <? _max_retries (tree s)) = true)
    by (apply Z.ltb_lt; lia).
  destruct (slot (go_left l) nd) as [c|] eqn:Hslot.
  - assert (Hc : c ∈ addrs t).
    { eapply (child_in_addrs _ _ _ n nd);
        [exact (inv_repr _ _ _ HInv)|by eapply inv_lookup_in|done..]. }
    apply (inv_addr_in _ _ _ HInv), lookup_lt_is_Some_2 in Hc as [nc Hnc].
    rewrite (insert_loop_at_node _ _ c nc Hnode Hnc), Hguard in Hloop.
    simplify_eq. split; [done|].
    exists t. apply (inv_park _ _ _ _ _ HInv Hk Hnr); [|done].
    unfold task_ok; simpl. split; [done|]. exists c, nc.
    split_and!; [done|done|simpl; lia|intros _; split; reflexivity|].
    eapply (fits_child _ _ _ _ n nd);
      [exact (inv_repr _ _ _ HInv)|by eapply inv_NoDup|by eapply inv_lookup_in
      |exact Hnd|exact Hslot|done|done].
  - rewrite (insert_loop_attach _ _ n nd Hnode Hpar Hnd Hslot), Hguard in Hloop.
    simplify_eq. split; [done|]. eexists. by eapply inv_attach.
Qed.

(** Every action of the event loop preserves the invariant. *)
Lemma inv_step s t a :
  Inv compare s t -> exists t', Inv compare (exec_action compare s a) t'.
Proof.
  intros HInv. destruct a as [v|i]; simpl.
  { exists t. destruct HInv as [Hlock Hrep Haddrs Hvals Hord Hup Htasks].
    constructor; simpl; try done.
    - rewrite inserted_app. unfold inserted at 2. simpl.
      by rewrite app_nil_r.
    - intros j kj [Hj|[_ Hj]]%lookup_app_Some; [eauto|].
      apply list_lookup_singleton_Some in Hj as [_ <-]. done. }
  destruct (tasks s !! i) as [k|] eqn:Hk; [|by exists t].
  pose proof (inv_tasks _ _ _ HInv _ _ Hk) as Hok.
  destruct k as [st l]. unfold resume, task_ok in *. simpl in *.
  destruct st as [| | |s0|st|er|]; try done.
  - (* a fresh call *)
    unfold insert_start. rewrite (inv_lock _ _ _ HInv).
    destruct (_root (tree s)) as [r|] eqn:Hroot; simpl.
    + pose proof (inv_repr _ _ _ HInv) as Hrep. rewrite Hroot in Hrep.
      pose proof (root_in_addrs _ _ _ Hrep) as Hr.
      apply (inv_addr_in _ _ _ HInv), lookup_lt_is_Some_2 in Hr as [n Hn].
      unfold enter_loop. rewrite Hroot.
      rewrite (insert_loop_at_node _ _ r n); [|done..]. simpl.
      destruct (0 <? _max_retries (tree s)) eqn:Hg; exists t;
        apply (inv_park _ _ _ _ _ HInv Hk); try done;
        unfold task_ok; simpl.
      * apply Z.ltb_lt in Hg. split; [lia|]. exists r, n.
        split_and!; [done|done|simpl; lia|intros _; split; reflexivity|].
        eapply fits_root; [done|by eapply inv_NoDup].
      * apply Z.ltb_ge in Hg. lia.
    + unfold with_root_lock. simpl. rewrite Hroot. simpl.
      eexists. by eapply inv_claim.
  - (* resuming from the comparison *)
    destruct Hok as (Hret & n & nd & Hn & Hnd & Hver & Hsame & Hfit).
    unfold pending_reply. rewrite Hn. simpl. rewrite Hnd. simpl.
    destruct (compare (l_value l) (value nd)) as [cmp|e] eqn:Hcmp; simpl.
    2:{ exists t. by apply (inv_park _ _ _ _ _ HInv Hk). }
    rewrite Hn, Hnd.
    destruct (version nd =? saved_version s0) eqn:Hv; simpl.
    + apply Z.eqb_eq in Hv. destruct (Hsame Hv) as [Hleft Hright].
      destruct (cmp <? 0) eqn:Hlt;
        match goal with
        | |- context [insert_loop loop_fuel ?b ?l1] =>
            destruct (insert_loop loop_fuel b l1) as [[b' l'] st'] eqn:Hloop;
            pose proof (inv_descend s t i _ l1 n nd b' l' st' HInv Hk eq_refl
                          Hnd eq_refl) as Hd
        end;
        simpl in Hd |- *;
        (destruct Hd as [_ [t' Ht']];
           [by symmetry|done|done|by exists cmp|done|by exists t']).
    + apply Z.eqb_neq in Hv.
      rewrite (insert_loop_at_node _ _ n nd); [|done..]. simpl.
      destruct (retries l + 1 <? _max_retries (tree s)) eqn:Hg; exists t;
        apply (inv_park _ _ _ _ _ HInv Hk); try done;
        unfold task_ok; simpl.
      * apply Z.ltb_lt in Hg. split; [lia|]. exists n, nd.
        split_and!; [done|done|simpl; lia|intros _; split; reflexivity|done].
      * apply Z.ltb_ge in Hg. lia.
  - (* finished: nothing to run *)
    exists t. rewrite list_insert_id by done. by destruct s.
  - exists t. rewrite list_insert_id by done. by destruct s.
Qed.

Lemma inv_init max_retries :
  Inv compare (system_init max_retries) Leaf.
Proof. by constructor. Qed.

Lemma inv_exec sched s t :
  Inv compare s t -> exists t', Inv compare (exec compare sched s) t'.
Proof.
  revert s t. induction sched as [|a sched IH]; intros s t HInv; simpl.
  - by exists t.
  - destruct (inv_step _ _ a HInv) as [t1 H1]. by eapply IH.
Qed.

(** What is reachable from the empty tree satisfies the invariant. *)
Lemma inv_reachable max_retries sched :
  exists t, Inv compare (exec compare sched (system_init max_retries)) t.
Proof. eapply inv_exec, inv_init. Qed.

End Invariant.

(** ** What a turn may do to the tree, whatever the state *)

Section Effects.

Context {T E : Type}.

Implicit Types (b : BST T) (l : locals T) (k : task T E) (n : Node T).

Lemma populated_same (o : option addr) : populated o o = 0.
Proof. by destruct o. Qed.

Lemma node_step_refl n : node_step n n.
Proof. unfold node_step. rewrite !populated_same. split_and!; auto with lia. Qed.

Lemma store_step_refl (h : list (Node T)) : store_step h h.
Proof.
  split.
  - intros a n Hn. exists n. split; [done|apply node_step_refl].
  - intros a n' Hnone Hsome. congruence.
Qed.

Lemma populated_trans (o o' o'' : option addr) :
  (forall c, o = Some c -> o' = Some c) ->
  (forall c, o' = Some c -> o'' = Some c) ->
  populated o o'' = populated o o' + populated o' o''.
Proof.
  intros H1 H2. destruct o as [c|].
  { rewrite (H1 c eq_refl), (H2 c (H1 c eq_refl)). done. }
  destruct o' as [c'|]; [by rewrite (H2 c' eq_refl)|by destruct o''].
Qed.

Lemma node_step_trans n n' n'' :
  node_step n n' -> node_step n' n'' -> node_step n n''.
Proof.
  intros (Hv & Hl & Hr & Hver) (Hv' & Hl' & Hr' & Hver').
  unfold node_step. split_and!; [congruence|auto|auto|].
  rewrite (populated_trans (left n) (left n') (left n'')),
    (populated_trans (right n) (right n') (right n'')) by done. lia.
Qed.

Lemma store_step_trans (h h' h'' : list (Node T)) :
  store_step h h' -> store_step h' h'' -> store_step h h''.
Proof.
  intros [H1 H1'] [H2 H2']. split.
  - intros a n Hn. destruct (H1 _ _ Hn) as (n' & Hn' & Hs).
    destruct (H2 _ _ Hn') as (n'' & Hn'' & Hs').
    exists n''. split; [done|by eapply node_step_trans].
  - intros a n'' Hnone Hn''. destruct (h' !! a) as [n'|] eqn:Hn'; [|eauto].
    destruct (H2 _ _ Hn') as (n2 & Hn2 & Hs'). simplify_eq.
    pose proof (H1' _ _ Hnone Hn') as Hs.
    destruct Hs' as [Hv Hrest]. rewrite Hv.
    eapply node_step_trans; [exact Hs|]. by split.
Qed.

Lemma store_step_alloc (h : list (Node T)) v : store_step h (h ++ [new_Node v]).
Proof.
  split.
  - intros a n Hn. exists n. split; [by apply lookup_app_l_Some|].
    apply node_step_refl.
  - intros a n' Hnone Hsome. apply lookup_ge_None in Hnone.
    rewrite lookup_app_r in Hsome by done.
    apply list_lookup_singleton_Some in Hsome as [_ <-]. apply node_step_refl.
Qed.

Lemma store_step_attach (h : list (Node T)) p pn d v :
  h !! p = Some pn -> slot d pn = None ->
  store_step h (<[p := bump_version (set_slot d pn (Some (length h)))]> h
                  ++ [new_Node v]).
Proof.
  intros Hpn Hslot. split.
  - intros a n Hn. destruct (decide (a = p)) as [->|Hne].
    + assert (n = pn) as -> by congruence.
      exists (bump_version (set_slot d pn (Some (length h)))). split.
      * apply lookup_app_l_Some, list_lookup_insert_eq. by eapply lookup_lt_Some.
      * unfold node_step. destruct d; simpl in *; rewrite Hslot;
          rewrite ?populated_same; unfold populated; simpl;
          split_and!; auto with lia; done.
    + exists n. split; [|apply node_step_refl].
      apply lookup_app_l_Some. by rewrite list_lookup_insert_ne.
  - intros a n' Hnone Hsome. apply lookup_ge_None in Hnone.
    rewrite lookup_app_r in Hsome by (by rewrite length_insert).
    apply list_lookup_singleton_Some in Hsome as [_ <-]. apply node_step_refl.
Qed.

(** One pass of the loop body: what it leaves behind for each way out. *)
Lemma loop_body_effect b l b' l' st' :
  loop_body (E := E) b l = (b', l', st') ->
  store_step (store b) (store b') /\
  _max_retries b' = _max_retries b /\ _root_lock b' = _root_lock b /\
  l_value l' = l_value l /\
  ((forall x, st' <> Returned x) -> b' = b) /\
  (st' <> Returned RootInLoop -> _root b' = _root b) /\
  st' <> Returned RootClaimed /\ st' <> Fresh /\ st' <> WaitingLock.
Proof.
  unfold loop_body. intros H.
  destruct (node l) as [n|].
  { destruct (store b !! n); simplify_eq; split_and!; try done;
      apply store_step_refl. }
  destruct (parent l) as [p|].
  2:{ simplify_eq. simpl. split_and!; try done.
      - apply store_step_alloc.
      - intros Hx. by destruct (Hx RootInLoop). }
  destruct (store b !! p) as [pn|] eqn:Hpn.
  2:{ simplify_eq. split_and!; try done. apply store_step_refl. }
  rewrite Z.eqb_refl, !andb_true_r in H.
  destruct (go_left l) eqn:Hd.
  - destruct (left pn) eqn:Hslot; simplify_eq/=.
    + split_and!; try done. apply store_step_refl.
    + split_and!; try done.
      * by apply (store_step_attach _ _ _ true).
      * intros Hx. by destruct (Hx AttachedLeft).
  - destruct (right pn) eqn:Hslot; simplify_eq/=.
    + split_and!; try done. apply store_step_refl.
    + split_and!; try done.
      * by apply (store_step_attach _ _ _ false).
      * intros Hx. by destruct (Hx AttachedRight).
Qed.

Lemma insert_loop_effect fuel b l b' l' st' :
  insert_loop (E := E) fuel b l = (b', l', st') ->
  store_step (store b) (store b') /\
  _max_retries b' = _max_retries b /\ _root_lock b' = _root_lock b /\
  l_value l' = l_value l /\
  ((forall x, st' <> Returned x) -> b' = b) /\
  (st' <> Returned RootInLoop -> _root b' = _root b) /\
  st' <> Returned RootClaimed /\ st' <> Fresh /\ st' <> WaitingLock.
Proof.
  revert b l. induction fuel as [|fuel IH]; intros b l H; cbn [insert_loop] in H.
  { simplify_eq. split_and!; try done. apply store_step_refl. }
  destruct (retries l <? _max_retries b).
  2:{ simplify_eq. split_and!; try done. apply store_step_refl. }
  destruct (loop_body b l) as [[b1 l1] st1] eqn:H1.
  assert (st1 = Running \/ (b1, l1, st1) = (b', l', st')) as [->|Heq]
    by (destruct st1; auto).
  - pose proof H1 as (-> & -> & _ & _)%loop_body_Running.
    apply IH in H. exact H.
  - simplify_eq. by eapply loop_body_effect.
Qed.

Lemma after_compare_effect b l s0 (r : reply E) b' l' st' :
  after_compare b l s0 r = (b', l', st') ->
  b' = b /\ l_value l' = l_value l /\ (forall x, st' <> Returned x) /\
  st' <> Fresh /\ st' <> WaitingLock.
Proof.
  unfold after_compare. intros H.
  destruct r as [cmp|e]; [|by simplify_eq].
  destruct (node l) as [n|]; [|by simplify_eq].
  destruct (store b !! n) as [nd|]; [|by simplify_eq].
  destruct (negb _); [by simplify_eq|].
  destruct (cmp <? 0); by simplify_eq.
Qed.

Lemma set_lock_release b :
  _root_lock b = false -> set_lock (set_lock b true) false = b.
Proof. destruct b; simpl; by intros ->. Qed.

(** One turn of a task: nodes only change by a first-time attachment, the
    tree changes only in a turn that returns, and the root changes only by
    the claim at the start of an [insert] or in the loop's root branch. *)
Lemma resume_effect (compare : T -> T -> reply E) b k b' l' st' :
  resume compare b k = (b', l', st') ->
  store_step (store b) (store b') /\
  _max_retries b' = _max_retries b /\
  l_value l' = l_value (t_locals k) /\
  ((forall x, st' <> Returned x) -> b' = b) /\
  (st' <> Returned RootInLoop ->
   _root b' = _root b \/
   (_root b = None /\ st' = Returned RootClaimed /\ _root_lock b = false /\
    (t_status k = Fresh \/ t_status k = WaitingLock) /\
    _root b' = Some (length (store b)) /\ _root_lock b' = false)).
Proof.
  assert (Hclaim : forall l, is_None (_root b) = true -> _root_lock b = false ->
            with_root_lock (E := E) b l = (b', l', st') ->
            (t_status k = Fresh \/ t_status k = WaitingLock) ->
            l = t_locals k ->
            store_step (store b) (store b') /\
            _max_retries b' = _max_retries b /\
            l_value l' = l_value (t_locals k) /\
            ((forall x, st' <> Returned x) -> b' = b) /\
            (st' <> Returned RootInLoop ->
             _root b' = _root b \/
             (_root b = None /\ st' = Returned RootClaimed /\
              _root_lock b = false /\
              (t_status k = Fresh \/ t_status k = WaitingLock) /\
              _root b' = Some (length (store b)) /\ _root_lock b' = false))).
  { intros l Hnone Hlk Hw Hst ->. unfold with_root_lock in Hw. simpl in Hw.
    rewrite Hnone in Hw. simplify_eq/=. split_and!; try done.
    - apply store_step_alloc.
    - intros Hx. by destruct (Hx RootClaimed).
    - intros _. right. destruct (_root b); by split_and!. }
  assert (Hloop : forall b0 l, b0 = b -> l_value l = l_value (t_locals k) ->
            insert_loop (E := E) loop_fuel b0 l = (b', l', st') ->
            store_step (store b) (store b') /\
            _max_retries b' = _max_retries b /\
            l_value l' = l_value (t_locals k) /\
            ((forall x, st' <> Returned x) -> b' = b) /\
            (st' <> Returned RootInLoop ->
             _root b' = _root b \/
             (_root b = None /\ st' = Returned RootClaimed /\
              _root_lock b = false /\
              (t_status k = Fresh \/ t_status k = WaitingLock) /\
              _root b' = Some (length (store b)) /\ _root_lock b' = false))).
  { intros b0 l -> Hv (H1 & H2 & H3 & H4 & H5 & H6 & _)%insert_loop_effect.
    split_and!; auto; congruence. }
  unfold resume. intros H.
  destruct (t_status k) as [| | |s0|x|er|] eqn:Hst.
  - unfold insert_start in H. destruct (is_None (_root b)) eqn:Hnone.
    + destruct (_root_lock b) eqn:Hlk.
      * simplify_eq. split_and!; auto using store_step_refl.
      * eapply Hclaim; eauto.
    + unfold enter_loop in H. by refine (Hloop _ _ eq_refl _ H).
  - destruct (_root_lock b) eqn:Hlk.
    { simplify_eq. split_and!; auto using store_step_refl. }
    destruct (is_None (_root b)) eqn:Hnone; [eapply Hclaim; eauto|].
    unfold with_root_lock in H. simpl in H. rewrite Hnone in H.
    unfold enter_loop in H.
    refine (Hloop _ _ _ _ H); [by apply set_lock_release|done].
  - simplify_eq. split_and!; auto using store_step_refl.
  - destruct (pending_reply compare b (t_locals k)) as [r|].
    2:{ simplify_eq. split_and!; auto using store_step_refl. }
    destruct (after_compare b (t_locals k) s0 r) as [[b1 l1] st1] eqn:Hac.
    apply after_compare_effect in Hac as (-> & Hv & Hnr & _).
    assert (st1 = Running \/ (b, l1, st1) = (b', l', st')) as [->|Heq]
      by (destruct st1; auto).
    + by refine (Hloop _ _ eq_refl _ H).
    + simplify_eq. split_and!; auto using store_step_refl.
  - simplify_eq. split_and!; auto using store_step_refl.
  - simplify_eq. split_and!; auto using store_step_refl.
  - simplify_eq. split_and!; auto using store_step_refl.
Qed.

End Effects.

(** ** Counting conflicts, remembering values *)

Section History.

#[local] Arguments insert_loop : simpl never.

Context {T E : Type}.
Variable compare : T -> T -> reply E.

Implicit Types (b : BST T) (l : locals T) (k : task T E) (s : system T E).
Implicit Types (t : shape T).

(** The retry counter moves exactly in the turns that found their
    snapshot stale. *)
Lemma resume_retries s t i k b' l' st' :
  Inv compare s t -> tasks s !! i = Some k ->
  resume compare (tree s) k = (b', l', st') ->
  retries l' = retries (t_locals k)
               + (if stale compare (tree s) k then 1 else 0).
Proof.
  intros HInv Hk. pose proof (inv_tasks _ _ _ HInv _ _ Hk) as Hok.
  destruct k as [st l]. unfold resume, stale, task_ok in *. simpl in *.
  destruct st as [| | |s0|st|er|]; try done.
  - unfold insert_start. rewrite (inv_lock _ _ _ HInv).
    destruct (_root (tree s)) as [r|] eqn:Hroot; simpl.
    + pose proof (inv_repr _ _ _ HInv) as Hrep. rewrite Hroot in Hrep.
      pose proof (root_in_addrs _ _ _ Hrep) as Hr.
      apply (inv_addr_in _ _ _ _ HInv), lookup_lt_is_Some_2 in Hr as [n Hn].
      unfold enter_loop. rewrite Hroot.
      rewrite (insert_loop_at_node _ _ r n); [|done..]. simpl.
      destruct (0 <? _max_retries (tree s)); intros; simplify_eq/=; lia.
    + unfold with_root_lock. simpl. rewrite Hroot. simpl.
      intros; simplify_eq/=; lia.
  - destruct Hok as (Hret & n & nd & Hn & Hnd & Hver & Hsame & Hfit).
    unfold pending_reply. rewrite Hn. simpl. rewrite Hnd. simpl.
    destruct (compare (l_value l) (value nd)) as [cmp|e] eqn:Hcmp; simpl.
    2:{ intros; simplify_eq/=; lia. }
    rewrite Hn, Hnd.
    destruct (version nd =? saved_version s0) eqn:Hv; simpl.
    + apply Z.eqb_eq in Hv. destruct (Hsame Hv) as [Hleft Hright].
      destruct (cmp <? 0) eqn:Hlt; intros Hloop;
        match type of Hloop with
        | insert_loop loop_fuel ?b ?l1 = _ =>
            pose proof (inv_descend compare s t i _ l1 n nd b' l' st' HInv Hk
                          eq_refl Hnd eq_refl) as Hd
        end;
        simpl in Hd;
        (destruct Hd as [-> _];
           [by symmetry|done|done|by exists cmp|done|simpl; lia]).
    + rewrite (insert_loop_at_node _ _ n nd); [|done..]. simpl.
      destruct (retries l + 1 <? _max_retries (tree s));
        intros; simplify_eq/=; lia.
  - intros; simplify_eq/=; lia.
  - intros; simplify_eq/=; lia.
Qed.

Lemma retries_conflicts sched s t i k' :
  Inv compare s t ->
  tasks (exec compare sched s) !! i = Some k' ->
  retries (t_locals k') = retries_at s i + conflicts compare sched s i.
Proof.
  revert s t. induction sched as [|a sched IH]; intros s t HInv Hk'; simpl in *.
  { unfold retries_at. rewrite Hk'. lia. }
  destruct (inv_step _ _ _ a HInv) as [t1 H1].
  rewrite (IH _ _ H1 Hk'). rewrite Z.add_assoc. f_equal.
  unfold retries_at. destruct a as [v|j]; simpl.
  - destruct (tasks s !! i) as [k|] eqn:Hk.
    + rewrite (lookup_app_l_Some _ _ _ _ Hk). lia.
    + apply lookup_ge_None in Hk.
      rewrite lookup_app_r by done.
      destruct (i - length (tasks s))%nat; simpl; lia.
  - destruct (decide (j = i)) as [->|Hne].
    + destruct (tasks s !! i) as [k|] eqn:Hk; [|by rewrite Hk].
      destruct (resume compare (tree s) k) as [[b' l'] st'] eqn:Hres. simpl.
      rewrite list_lookup_insert_eq by (by eapply lookup_lt_Some). simpl.
      by eapply resume_retries.
    + destruct (tasks s !! j) as [kj|] eqn:Hkj; [|lia].
      destruct (resume compare (tree s) kj) as [[b' l'] st'] eqn:Hres. simpl.
      rewrite list_lookup_insert_ne by done. lia.
Qed.

(** A turn never changes the value its task is inserting. *)
Lemma task_values sched s :
  task_value <$> tasks (exec compare sched s)
  = (task_value <$> tasks s) ++ spawned sched.
Proof.
  revert s. induction sched as [|a sched IH]; intros s; simpl.
  { by rewrite app_nil_r. }
  rewrite IH. destruct a as [v|i]; simpl.
  - by rewrite fmap_app, <- app_assoc.
  - f_equal. destruct (tasks s !! i) as [k|] eqn:Hk; [|done].
    destruct (resume compare (tree s) k) as [[b' l'] st'] eqn:Hres. simpl.
    apply resume_effect in Hres as (_ & _ & Hv & _).
    rewrite list_fmap_insert. apply list_insert_id.
    rewrite list_lookup_fmap, Hk. simpl. unfold task_value. simpl. congruence.
Qed.

Lemma inserted_all (ks : list (task T E)) :
  Forall (fun k => is_returned k = true) ks -> inserted ks = task_value <$> ks.
Proof.
  intros H. unfold inserted. f_equal.
  induction H as [|k ks Hk _ IH]; [done|].
  rewrite filter_cons. destruct (decide _); [by f_equal|done].
Qed.

Lemma inserted_sub (ks : list (task T E)) v :
  v ∈ inserted ks -> v ∈ task_value <$> ks.
Proof.
  unfold inserted. intros (k & -> & Hk)%list_elem_of_fmap.
  apply list_elem_of_fmap. exists k. split; [done|].
  by apply list_elem_of_filter in Hk as [_ Hk].
Qed.

End History.

(** ** Trees built with an answering comparison *)

Section Ordered.

Context {T E : Type}.
Variable cmp : T -> T -> Z.

Implicit Types (t : shape T) (v x : T).

Lemma side_answering d v x :
  side (answering (E := E) cmp) d v x <-> (cmp v x <? 0) = d.
Proof.
  unfold side, answering. split.
  - intros (c & Hc & Hd). by simplify_eq.
  - intros Hd. by exists (cmp v x).
Qed.

Lemma length_vals_addrs t : length (vals t) = length (addrs t).
Proof.
  induction t as [|l IHl a x r IHr]; simpl; [done|].
  rewrite !length_app. simpl. lia.
Qed.

(** The in-order sequence of an ordered tree is sorted. *)
Lemma ordered_sorted t :
  (forall a b, cmp a b < 0 <-> 0 < cmp b a) ->
  (forall a b c, cmp a b <= 0 -> cmp b c <= 0 -> cmp a c <= 0) ->
  ordered (answering (E := E) cmp) t ->
  StronglySorted (fun a b => cmp a b <= 0) (vals t).
Proof.
  intros Hanti Htrans. induction t as [|l IHl a x r IHr]; simpl.
  { intros _. constructor. }
  intros (Hl & Hr & Hol & Hor).
  assert (Hlx : forall y, y ∈ vals l -> cmp y x <= 0).
  { intros y Hy. apply Hl, side_answering, Z.ltb_lt in Hy. lia. }
  assert (Hxr : forall y, y ∈ vals r -> cmp x y <= 0).
  { intros y Hy. apply Hr, side_answering, Z.ltb_ge in Hy.
    destruct (Z.le_gt_cases (cmp x y) 0) as [|Hgt]; [done|].
    apply Hanti in Hgt. lia. }
  apply StronglySorted_app_2; [|by apply IHl|].
  - intros y z Hy [->|Hz]%elem_of_cons; [by apply Hlx|].
    eapply Htrans; [by apply Hlx|by apply Hxr].
  - apply StronglySorted_cons. split; [|by apply IHr].
    apply Forall_forall. intros y Hy. by apply Hxr.
Qed.

(** [contains] finds every value of an ordered tree. *)
Lemma search_found t v :
  (forall a b, cmp a b < 0 <-> 0 < cmp b a) ->
  ordered (answering (E := E) cmp) t ->
  v ∈ vals t -> search (answering (E := E) cmp) v t = Value true.
Proof.
  intros Hanti. assert (Hrefl : forall a, cmp a a = 0).
  { intros a. pose proof (Hanti a a). lia. }
  induction t as [|l IHl a x r IHr]; simpl.
  { by intros _ ?%elem_of_nil. }
  intros (Hl & Hr & Hol & Hor) Hv. unfold answering at 1.
  destruct (cmp v x =? 0) eqn:H0; [done|]. apply Z.eqb_neq in H0.
  rewrite elem_of_app, elem_of_cons in Hv.
  destruct (cmp v x <? 0) eqn:Hlt.
  - apply IHl; [done|]. destruct Hv as [Hv|[->|Hv]]; [done| |].
    + by rewrite Hrefl in H0.
    + apply Hr, side_answering in Hv. congruence.
  - apply IHr; [done|]. destruct Hv as [Hv|[->|Hv]]; [| |done].
    + apply Hl, side_answering in Hv. congruence.
    + by rewrite Hrefl in H0.
Qed.

(** [contains] finds nothing that no node compares equal to. *)
Lemma search_absent t v :
  (forall a b, cmp a b = 0 -> a = b) ->
  v ∉ vals t -> search (answering (E := E) cmp) v t = Value false.
Proof.
  intros Heq. induction t as [|l IHl a x r IHr]; simpl; [done|].
  rewrite elem_of_app, elem_of_cons. intros Hv. unfold answering at 1.
  destruct (cmp v x =? 0) eqn:H0.
  { apply Z.eqb_eq, Heq in H0. tauto. }
  destruct (cmp v x <? 0); [apply IHl|apply IHr]; tauto.
Qed.

End Ordered.

(** ** A task left to run alone finishes *)

Section Progress.

#[local] Arguments insert_loop : simpl never.

Context {T E : Type}.
Variable compare : T -> T -> reply E.

Implicit Types (b : BST T) (l : locals T) (k : task T E) (s : system T E).
Implicit Types (t : shape T).

(** With a current snapshot the turn trusts the comparison: the task is
    over (it attached, or the comparison raised) or it waits one level
    further down, again with a current snapshot. *)
Lemma solo_turn_fresh s t i n :
  Inv compare s t -> fresh_at s i n ->
  let s' := exec_action compare s (Run i) in
  task_finished s' i \/
  exists c, (n < c)%nat /\ fresh_at s' i c /\ tree s' = tree s.
Proof.
  intros HInv (l & nd & Hk & Hn & Hnd) s'.
  pose proof (inv_tasks _ _ _ HInv _ _ Hk) as Hok.
  unfold task_ok in Hok. simpl in Hok.
  destruct Hok as (Hret & n' & nd' & Hn' & Hnd' & _ & _ & Hfit).
  assert (n' = n) as -> by congruence. assert (nd' = nd) as -> by congruence.
  assert (Hi : (i < length (tasks s))%nat) by (by eapply lookup_lt_Some).
  assert (Hguard : (retries l <? _max_retries (tree s)) = true)
    by (apply Z.ltb_lt; lia).
  unfold s'. simpl. rewrite Hk. unfold resume, pending_reply. simpl.
  rewrite Hn. simpl. rewrite Hnd. simpl.
  destruct (compare (l_value l) (value nd)) as [cmp|e] eqn:Hcmp; simpl.
  2:{ left. eexists. split; [by apply list_lookup_insert_eq|done]. }
  rewrite Hn, Hnd, Z.eqb_refl. simpl.
  assert (Hgo : forall d l1,
            node l1 = slot d nd -> parent l1 = Some n -> go_left l1 = d ->
            retries l1 = retries l ->
            let '(b', l', st') := insert_loop loop_fuel (tree s) l1 in
            task_finished
              {| tree := b';
                 tasks := <[i := {| t_status := st'; t_locals := l' |}]>
                            (tasks s) |} i \/
            exists c, (n < c)%nat /\
              fresh_at
                {| tree := b';
                   tasks := <[i := {| t_status := st'; t_locals := l' |}]>
                              (tasks s) |} i c /\
              b' = tree s).
  { intros d l1 Hnode Hpar Hd Hr.
    destruct (slot d nd) as [c|] eqn:Hslot.
    - assert (Hc : c ∈ addrs t).
      { eapply (child_in_addrs _ _ _ n nd);
          [exact (inv_repr _ _ _ HInv)|by eapply inv_lookup_in|done..]. }
      apply (inv_addr_in _ _ _ _ HInv), lookup_lt_is_Some_2 in Hc as [nc Hnc].
      rewrite (insert_loop_at_node _ _ c nc Hnode Hnc), Hr, Hguard.
      right. exists c. split; [by eapply (inv_up _ _ _ HInv)|].
      split; [|done]. exists l1, nc. simpl.
      split; [by apply list_lookup_insert_eq|done].
    - rewrite (insert_loop_attach _ _ n nd Hnode Hpar Hnd), Hr, Hguard
        by (by rewrite Hd).
      left. eexists. split; [by apply list_lookup_insert_eq|done]. }
  destruct (cmp <? 0);
    match goal with
    | |- context [insert_loop loop_fuel ?b ?l1] =>
        pose proof (Hgo (go_left l1) l1 eq_refl eq_refl eq_refl eq_refl) as Hd;
        destruct (insert_loop loop_fuel b l1) as [[b' l'] st']
    end; exact Hd.
Qed.

(** The first turn a task is given: it is over, or it waits with a
    current snapshot. *)
Lemma first_turn s t i k :
  Inv compare s t -> tasks s !! i = Some k -> finished k = false ->
  let s' := exec_action compare s (Run i) in
  task_finished s' i \/ exists c, fresh_at s' i c /\ tree s' = tree s.
Proof.
  intros HInv Hk Hnf s'.
  pose proof (inv_tasks _ _ _ HInv _ _ Hk) as Hok.
  assert (Hi : (i < length (tasks s))%nat) by (by eapply lookup_lt_Some).
  destruct k as [st l]. unfold task_ok, finished in *. simpl in *.
  destruct st as [| | |s0|st|er|]; try done.
  - unfold s'. simpl. rewrite Hk. unfold resume. simpl.
    unfold insert_start. rewrite (inv_lock _ _ _ HInv).
    destruct (_root (tree s)) as [r|] eqn:Hroot; simpl.
    + pose proof (inv_repr _ _ _ HInv) as Hrep. rewrite Hroot in Hrep.
      pose proof (root_in_addrs _ _ _ Hrep) as Hr.
      apply (inv_addr_in _ _ _ _ HInv), lookup_lt_is_Some_2 in Hr as [n Hn].
      unfold enter_loop. rewrite Hroot.
      rewrite (insert_loop_at_node _ _ r n); [|done..]. simpl.
      destruct (0 <? _max_retries (tree s)).
      * right. exists r. split; [|done]. eexists _, n. simpl.
        split; [by apply list_lookup_insert_eq|done].
      * left. eexists. split; [by apply list_lookup_insert_eq|done].
    + unfold with_root_lock. simpl. rewrite Hroot. simpl.
      left. eexists. split; [by apply list_lookup_insert_eq|done].
  - destruct Hok as (Hret & n & nd & Hn & Hnd & Hver & Hsame & Hfit).
    destruct (decide (version nd = saved_version s0)) as [Hv|Hv].
    + destruct (Hsame Hv) as [Hl Hr].
      assert (s0 = snap nd) as ->
        by (unfold snap; destruct s0; simpl in *; congruence).
      destruct (solo_turn_fresh s t i n HInv) as [Hfin|(c & _ & Hc)];
        [by exists l, nd|by left|right; by exists c].
    + unfold s'. simpl. rewrite Hk. unfold resume, pending_reply. simpl.
      rewrite Hn. simpl. rewrite Hnd. simpl.
      destruct (compare (l_value l) (value nd)) as [cmp|e]; simpl.
      2:{ left. eexists. split; [by apply list_lookup_insert_eq|done]. }
      rewrite Hn, Hnd. apply Z.eqb_neq in Hv. rewrite Hv. simpl.
      rewrite (insert_loop_at_node _ _ n nd); [|done..]. simpl.
      destruct (retries l + 1 <? _max_retries (tree s)).
      * right. exists n. split; [|done]. eexists _, nd. simpl.
        split; [by apply list_lookup_insert_eq|done].
      * left. eexists. split; [by apply list_lookup_insert_eq|done].
Qed.

Lemma solo_fresh_finishes m s t i n :
  Inv compare s t -> fresh_at s i n ->
  (length (store (tree s)) - n <= m)%nat ->
  exists j, (j <= m)%nat /\
    task_finished (exec compare (replicate j (Run i)) s) i.
Proof.
  revert s t n. induction m as [|m IH]; intros s t n HInv Hfresh Hm.
  { destruct Hfresh as (l & nd & _ & _ & Hnd).
    apply lookup_lt_Some in Hnd. lia. }
  destruct (solo_turn_fresh s t i n HInv Hfresh) as [Hfin|(c & Hc & Hf & Htree)].
  - exists 1%nat. split; [lia|exact Hfin].
  - destruct (inv_step compare s t (Run i) HInv) as [t' HInv'].
    destruct (IH _ t' c HInv' Hf) as (j & Hj & Hfin).
    { rewrite Htree. lia. }
    exists (S j). split; [lia|exact Hfin].
Qed.

(** Given turns without interruption, a call is over after at most one
    turn more than the tree has nodes. *)
Lemma solo_run_finishes s t i k :
  Inv compare s t -> tasks s !! i = Some k ->
  exists j, (j <= length (store (tree s)) + 1)%nat /\
    task_finished (exec compare (replicate j (Run i)) s) i.
Proof.
  intros HInv Hk. destruct (finished k) eqn:Hf.
  { exists O. split; [lia|]. by exists k. }
  destruct (first_turn s t i k HInv Hk Hf) as [Hfin|(c & Hc & Htree)].
  - exists 1%nat. split; [lia|exact Hfin].
  - destruct (inv_step compare s t (Run i) HInv) as [t' HInv'].
    destruct (solo_fresh_finishes (length (store (tree s))) _ t' i c HInv' Hc)
      as (j & Hj & Hfin).
    { rewrite Htree. lia. }
    exists (S j). split; [lia|exact Hfin].
Qed.

End Progress.

(** * The specification's claims *)

(** C1.  Whatever the schedule (one [insert] after the other, or any
    interleaving of their turns) and whatever [max_retries], with a
    comparison that answers a consistent total order, [to_list] returns a
    list (given recursion depth for the store's size) that is sorted by the
    comparison and is a permutation of the values whose [insert] has
    returned, duplicates included; once every [insert] has returned that is
    a permutation of all the values handed to [insert]. *)
Theorem to_list_sorted_multiset {T E : Type} (cmp : T -> T -> Z)
    (max_retries : Z) (sched : list (action T)) :
  (forall a b, cmp a b < 0 <-> 0 < cmp b a) ->
  (forall a b c, cmp a b <= 0 -> cmp b c <= 0 -> cmp a c <= 0) ->
  let s := exec (answering (E := E) cmp) sched (system_init max_retries) in
  exists l,
    (forall extra,
       to_list (length (store (tree s)) + extra) (tree s) = Some l) /\
    StronglySorted (fun a b => cmp a b <= 0) l /\
    l ≡ₚ inserted (tasks s) /\
    (Forall (fun k => is_returned k = true) (tasks s) -> l ≡ₚ spawned sched).
Proof.
  intros Hanti Htrans s.
  destruct (inv_reachable (answering (E := E) cmp) max_retries sched)
    as [t HInv].
  fold s in HInv. exists (vals t). split_and!.
  - intros extra. unfold to_list.
    rewrite (inorder_repr _ _ t); [done|apply HInv|].
    pose proof (height_le_size t) as Hh.
    rewrite (Permutation_length (inv_addrs _ _ _ HInv)), length_seq in Hh. lia.
  - apply (ordered_sorted (E := E)); [done..|apply HInv].
  - apply HInv.
  - intros Hall. rewrite (inv_vals _ _ _ HInv), (inserted_all _ Hall).
    unfold s. by rewrite task_values.
Qed.

Lemma to_list_sorted_multiset_witness :
  exists l,
    to_list 3 (tree (exec int_compare
                       [Spawn 5; Spawn 3; Spawn 7; Run 0; Run 1; Run 2;
                        Run 1; Run 2; Run 2]
                       (system_init 100))) = Some l /\
    l = [3; 5; 7] /\
    StronglySorted (fun a b => a - b <= 0) l /\
    l ≡ₚ [5; 3; 7].
Proof.
  destruct (to_list_sorted_multiset (E := Empty_set) Z.sub 100
              [Spawn 5; Spawn 3; Spawn 7; Run 0; Run 1; Run 2;
               Run 1; Run 2; Run 2]) as (l & Hl & Hs & _ & Hp).
  - intros a b. lia.
  - intros a b c. lia.
  - exists l. specialize (Hl O). split; [exact Hl|].
    split; [|split; [exact Hs|]].
    + vm_compute in Hl. congruence.
    + apply Hp. vm_compute. repeat constructor.
Defined.

(** C9.  Whatever the comparison, the schedule and [max_retries],
    [__len__] (given recursion depth for the store's size) returns the
    number of [insert] calls that have returned; that is the number of all
    calls once each has returned, and [0] for a fresh tree. *)
Theorem len_counts_inserts {T E : Type} (compare : T -> T -> reply E)
    (max_retries : Z) (sched : list (action T)) (extra : nat) :
  let s := exec compare sched (system_init max_retries) in
  len (length (store (tree s)) + extra) (tree s)
  = Some (Z.of_nat (length (inserted (tasks s)))) /\
  (Forall (fun k => is_returned k = true) (tasks s) ->
   len (length (store (tree s)) + extra) (tree s)
   = Some (Z.of_nat (length (spawned sched)))) /\
  len extra (BST_init (T := T) max_retries) = Some 0.
Proof.
  intros s.
  destruct (inv_reachable compare max_retries sched) as [t HInv].
  fold s in HInv.
  assert (Hlen : len (length (store (tree s)) + extra) (tree s)
                 = Some (Z.of_nat (length (inserted (tasks s))))).
  { unfold len. rewrite (count_repr _ _ t); [|apply HInv|].
    - by rewrite <- (Permutation_length (inv_vals _ _ _ HInv)),
        length_vals_addrs.
    - pose proof (height_le_size t) as Hh.
      rewrite (Permutation_length (inv_addrs _ _ _ HInv)), length_seq in Hh.
      lia. }
  split_and!; [done| |by destruct extra].
  intros Hall. rewrite Hlen, (inserted_all _ Hall).
  unfold s. by rewrite task_values.
Qed.

Lemma len_counts_inserts_witness :
  len 9 (tree (exec int_compare
                 [Spawn 5; Spawn 3; Spawn 7; Spawn 1; Spawn 9; Run 0;
                  Run 1; Run 2; Run 3; Run 4; Run 1; Run 2; Run 3; Run 4;
                  Run 1; Run 2; Run 3; Run 4; Run 1; Run 2; Run 3; Run 4;
                  Run 1; Run 2; Run 3; Run 4]
                 (system_init 100)))
  = Some 5.
Proof.
  destruct (len_counts_inserts int_compare 100
              [Spawn 5; Spawn 3; Spawn 7; Spawn 1; Spawn 9; Run 0;
               Run 1; Run 2; Run 3; Run 4; Run 1; Run 2; Run 3; Run 4;
               Run 1; Run 2; Run 3; Run 4; Run 1; Run 2; Run 3; Run 4;
               Run 1; Run 2; Run 3; Run 4] 4)
    as (_ & Hall & _).
  apply Hall. vm_compute. repeat constructor.
Defined.




Lemma exec_action_store {T E : Type} (compare : T -> T -> reply E) s a :
  store_step (store (tree s)) (store (tree (exec_action compare s a))).
Proof.
  destruct a as [v|i]; simpl; [apply store_step_refl|].
  destruct (tasks s !! i) as [k|]; [|apply store_step_refl].
  destruct (resume compare (tree s) k) as [[b' l'] st'] eqn:Hres. simpl.
  by apply resume_effect in Hres as (? & _).
Qed.

Lemma exec_store {T E : Type} (compare : T -> T -> reply E) sched s :
  store_step (store (tree s)) (store (tree (exec compare sched s))).
Proof.
  revert s. induction sched as [|a sched IH]; intros s; simpl.
  - apply store_step_refl.
  - eapply store_step_trans; [apply exec_action_store|apply IH].
Qed.

(** C4.  Over any run of the event loop, from any state: a node that
    exists keeps its value; a child slot that is present keeps its child; a
    node's version has moved by exactly one for each of its slots that went
    from absent to present; a node created during the run (version [0], no
    children, when created) has as version the number of its slots
    populated since. *)
Theorem node_invariants {T E : Type} (compare : T -> T -> reply E)
    (sched : list (action T)) (s : system T E) :
  let h := store (tree s) in
  let h' := store (tree (exec compare sched s)) in
  (forall a n, h !! a = Some n ->
     exists n', h' !! a = Some n' /\
       value n' = value n /\
       (forall c, left n = Some c -> left n' = Some c) /\
       (forall c, right n = Some c -> right n' = Some c) /\
       version n' = version n + populated (left n) (left n')
                              + populated (right n) (right n')) /\
  (forall a n', h !! a = None -> h' !! a = Some n' ->
     version n' = populated None (left n') + populated None (right n')) /\
  (forall v : T, version (new_Node v) = 0 /\ left (new_Node v) = None /\
                 right (new_Node v) = None).
Proof.
  intros h h'. destruct (exec_store compare sched s) as [H1 H2].
  split_and!; [exact H1| |done].
  intros a n' Hnone Hn'. by destruct (H2 _ _ Hnone Hn') as (_ & _ & _ & ->).
Qed.

Lemma node_invariants_witness :
  let s := exec int_compare [Spawn 5; Run 0; Spawn 3; Run 1]
             (system_init 100) in
  let s' := exec int_compare [Run 1; Spawn 7; Run 2; Run 2] s in
  exists n', store (tree s') !! O = Some n' /\ value n' = 5 /\
             left n' = Some 1%nat /\ right n' = Some 2%nat /\ version n' = 2.
Proof.
  intros s s'.
  destruct (node_invariants int_compare [Run 1; Spawn 7; Run 2; Run 2] s)
    as (H & _ & _).
  destruct (H O (new_Node 5) eq_refl) as (n' & Hn' & Hv & _ & _ & Hver).
  exists n'. split; [exact Hn'|]. split; [exact Hv|].
  vm_compute in Hn'. injection Hn' as <-. by vm_compute.
Defined.

Lemma root_stays {T E : Type} (compare : T -> T -> reply E) s t a r :
  Inv compare s t -> _root (tree s) = Some r ->
  _root (tree (exec_action compare s a)) = Some r.
Proof.
  intros HInv Hr. destruct (inv_step compare s t a HInv) as [t' HInv'].
  destruct a as [v|i]; simpl in *; [done|].
  destruct (tasks s !! i) as [k|] eqn:Hk; [|done].
  destruct (resume compare (tree s) k) as [[b' l'] st'] eqn:Hres.
  simpl in *.
  pose proof (inv_tasks _ _ _ HInv' i _
                (list_lookup_insert_eq _ _ _ (lookup_lt_Some _ _ _ Hk))) as Hok.
  apply resume_effect in Hres as (_ & _ & _ & _ & Hroot).
  destruct Hroot as [->|(Hnone & _)]; [|done|congruence].
  intros ->. exact Hok.
Qed.

(** C8.  In every state reachable from the empty tree: no [insert] has
    ever returned from the loop's branch with [node] and [parent] both
    absent; a root that is present is still the same after any further
    schedule; and the turn that takes the root from absent to present is
    the first turn of an [insert] (a fresh call, taking the free lock),
    which returns from the claim under the lock and leaves the lock free. *)
Theorem root_claimed_once {T E : Type} (compare : T -> T -> reply E)
    (max_retries : Z) (sched : list (action T)) :
  let s := exec compare sched (system_init max_retries) in
  (forall i k, tasks s !! i = Some k ->
     t_status k <> Returned RootInLoop /\ t_status k <> WaitingLock) /\
  _root_lock (tree s) = false /\
  (forall r more, _root (tree s) = Some r ->
     _root (tree (exec compare more s)) = Some r) /\
  (forall a, _root (tree s) = None ->
     _root (tree (exec_action compare s a)) <> None ->
     exists i k k',
       a = Run i /\ tasks s !! i = Some k /\ t_status k = Fresh /\
       tasks (exec_action compare s a) !! i = Some k' /\
       t_status k' = Returned RootClaimed /\
       _root (tree (exec_action compare s a)) = Some (length (store (tree s)))).
Proof.
  intros s.
  destruct (inv_reachable compare max_retries sched) as [t HInv].
  fold s in HInv. split_and!.
  - intros i k Hk. pose proof (inv_tasks _ _ _ HInv _ _ Hk) as Hok.
    unfold task_ok in Hok. split; intros Hst; by rewrite Hst in Hok.
  - apply HInv.
  - intros r more. clearbody s. revert s t HInv.
    induction more as [|a more IH]; intros s t HInv Hr; simpl; [done|].
    destruct (inv_step compare s t a HInv) as [t' HInv'].
    eapply IH; [exact HInv'|]. by eapply root_stays.
  - intros a Hnone Hsome. destruct a as [v|i]; simpl in *; [done|].
    destruct (tasks s !! i) as [k|] eqn:Hk; [|done].
    pose proof (inv_tasks _ _ _ HInv _ _ Hk) as Hok.
    destruct (resume compare (tree s) k) as [[b' l'] st'] eqn:Hres.
    simpl in *.
    pose proof (resume_effect _ _ _ _ _ _ Hres) as (_ & _ & _ & Hpure & Hroot).
    assert (Hne : st' <> Returned RootInLoop).
    { destruct (inv_step compare s t (Run i) HInv) as [t' HInv'].
      simpl in HInv'. rewrite Hk, Hres in HInv'.
      pose proof (inv_tasks _ _ _ HInv' i _
        (list_lookup_insert_eq _ _ _ (lookup_lt_Some _ _ _ Hk))) as Hok'.
      intros ->. exact Hok'. }
    destruct (Hroot Hne) as [Heq|(_ & -> & _ & Hst & Hr' & _)];
      [congruence|].
    exists i, k, {| t_status := Returned RootClaimed; t_locals := l' |}.
    split_and!; try done.
    + destruct Hst as [Hst|Hst]; [done|].
      unfold task_ok in Hok. by rewrite Hst in Hok.
    + apply list_lookup_insert_eq. by eapply lookup_lt_Some.
Qed.

Lemma root_claimed_once_witness :
  let s := exec int_compare [Spawn 5; Run 0; Spawn 3; Run 1; Run 1]
             (system_init 100) in
  _root (tree (exec int_compare [Spawn 1; Run 2; Run 2; Spawn 9; Run 3] s))
  = Some O.
Proof.
  intros s.
  destruct (root_claimed_once int_compare 100
              [Spawn 5; Run 0; Spawn 3; Run 1; Run 1]) as (_ & _ & H & _).
  apply H. reflexivity.
Defined.

Lemma contains_failure {T E : Type} (compare : T -> T -> reply E)
    fuel (h : list (Node T)) p v e :
  contains_from compare fuel h p v = Some (Failure e) ->
  exists x, x ∈ h /\ compare v (value x) = Exc e.
Proof.
  revert p. induction fuel as [|fuel IH]; intros [n|]; simpl; try done.
  destruct (h !! n) as [x|] eqn:Hx; [|done].
  destruct (compare v (value x)) as [cmp|e'] eqn:Hc.
  - destruct (cmp =? 0); [done|]. apply IH.
  - intros ?; simplify_eq. exists x. split; [|done].
    by eapply list_elem_of_lookup_2.
Qed.



(** C2.  The two tiers of retry.  (a) A task that resumes from an answered
    comparison and finds the version of its node different from the
    snapshot drops the answer [c], adds one to [retries] and stays at the
    same node with [parent] and [go_left] untouched and the tree as it was;
    the loop then snapshots that same node again and awaits the comparison
    (or raises once the budget is used up): it neither descends nor returns
    to the root.  (b) A pass that finds [node] absent and the slot of
    [parent] occupied adds one to [retries], sets [node] to the root and
    [parent] to absent, and goes around the loop with the tree as it was;
    the version re-check of lines 88 and 93 can never fail on its own. *)
Theorem two_tier_retry {T E : Type} (b : BST T) (l : locals T) :
  (forall s0 c n nd,
     node l = Some n -> store b !! n = Some nd ->
     version nd <> saved_version s0 ->
     let l1 := {| l_value := l_value l; retries := retries l + 1;
                  node := Some n; parent := parent l;
                  go_left := go_left l |} in
     after_compare (E := E) b l s0 (Ret c) = (b, l1, Running) /\
     insert_loop (E := E) loop_fuel b l1
     = if retries l + 1 <? _max_retries b
       then (b, l1, AwaitingCompare (snap nd))
       else (b, l1, Raised RetryExhausted)) /\
  (forall p pn,
     node l = None -> parent l = Some p -> store b !! p = Some pn ->
     loop_body (E := E) b l
     = if is_None (slot (go_left l) pn)
       then (attached b p pn (go_left l) (l_value l), l,
             Returned (attach_site (go_left l)))
       else (b, {| l_value := l_value l; retries := retries l + 1;
                   node := _root b; parent := None;
                   go_left := go_left l |}, Running)).
Proof.
  split.
  - intros s0 c n nd Hn Hnd Hver l1. split.
    + unfold after_compare. rewrite Hn, Hnd.
      apply Z.eqb_neq in Hver. by rewrite Hver.
    + by rewrite (insert_loop_at_node _ _ n nd).
  - intros p pn Hn Hp Hpn. unfold loop_body.
    rewrite Hn, Hp, Hpn, Z.eqb_refl, !andb_true_r.
    unfold restart.
    destruct (go_left l); simpl; [destruct (left pn)|destruct (right pn)];
      reflexivity.
Qed.

Lemma two_tier_retry_witness :
  let b := tree (exec int_compare
                   [Spawn 5; Run 0; Spawn 3; Spawn 7; Run 1; Run 2; Run 1]
                   (system_init 100)) in
  let l := {| l_value := 7; retries := 0; node := Some O; parent := None;
              go_left := false |} in
  let l' := {| l_value := 1; retries := 0; node := None; parent := Some O;
               go_left := true |} in
  after_compare (E := Empty_set) b l (snap (new_Node 5)) (Ret 2)
  = (b, {| l_value := 7; retries := 1; node := Some O; parent := None;
           go_left := false |}, Running) /\
  loop_body (E := Empty_set) b l'
  = (b, {| l_value := 1; retries := 1; node := Some O; parent := None;
           go_left := true |}, Running).
Proof.
  intros b l l'. split.
  - destruct (two_tier_retry (E := Empty_set) b l) as [Ha _].
    refine (proj1 (Ha (snap (new_Node 5)) 2 O
                      {| value := 5; left := Some 1%nat; right := None;
                         version := 1 |} eq_refl eq_refl _)).
    simpl. lia.
  - destruct (two_tier_retry (E := Empty_set) b l') as [_ Hb].
    exact (Hb O {| value := 5; left := Some 1%nat; right := None;
                   version := 1 |} eq_refl eq_refl eq_refl).
Defined.

Lemma exec_max_retries {T E : Type} (compare : T -> T -> reply E) sched s :
  _max_retries (tree (exec compare sched s)) = _max_retries (tree s).
Proof.
  revert s. induction sched as [|a sched IH]; intros s; simpl; [done|].
  rewrite IH. destruct a as [v|i]; simpl; [done|].
  destruct (tasks s !! i) as [k|]; [|done].
  destruct (resume compare (tree s) k) as [[b' l'] st'] eqn:Hres. simpl.
  by apply resume_effect in Hres as (_ & ? & _).
Qed.

(** C10.  With [max_retries <= 0] an [insert] that finds a root raises the
    retry error on the spot, with no retry counted and the tree as it was;
    an [insert] that finds no root (and the lock free) makes its value the
    root and returns, whatever [max_retries] is.  So over any schedule from
    the empty tree with [max_retries <= 0], every call that has run either
    claimed the root or raised the retry error without a single conflict. *)
Theorem zero_budget {T E : Type} (b : BST T) (l : locals T) :
  (_max_retries b <= 0 -> forall r, _root b = Some r ->
   insert_start (E := E) b l
   = (b, {| l_value := l_value l; retries := 0; node := Some r;
            parent := None; go_left := false |}, Raised RetryExhausted)) /\
  (_root b = None -> _root_lock b = false ->
   insert_start (E := E) b l
   = ({| store := store b ++ [new_Node (l_value l)];
         _root := Some (length (store b));
         _max_retries := _max_retries b;
         _root_lock := false |}, l, Returned RootClaimed)) /\
  (forall (compare : T -> T -> reply E) sched i k,
     _max_retries b <= 0 ->
     tasks (exec compare sched (system_init (_max_retries b))) !! i = Some k ->
     t_status k = Fresh \/
     t_status k = Returned RootClaimed \/
     (t_status k = Raised RetryExhausted /\ retries (t_locals k) = 0)).
Proof.
  split_and!.
  - intros Hmax r Hr. unfold insert_start, enter_loop. rewrite Hr. simpl.
    unfold loop_fuel. cbn [insert_loop]. simpl.
    by destruct (Z.ltb_spec 0 (_max_retries b)); [lia|].
  - intros Hr Hlk. unfold insert_start, with_root_lock. simpl.
    by rewrite Hr, Hlk.
  - intros compare sched i k Hmax Hk.
    destruct (inv_reachable compare (_max_retries b) sched) as [t HInv].
    pose proof (inv_tasks _ _ _ HInv _ _ Hk) as Hok.
    pose proof (exec_max_retries compare sched (system_init (_max_retries b)))
      as Hm. simpl in Hm.
    unfold task_ok in Hok. rewrite Hm in Hok.
    destruct (t_status k) as [| | |s0|x|er|]; try done.
    + by left.
    + destruct Hok as [? _]; lia.
    + destruct x; try done; try lia. right; by left.
    + destruct er; [|lia]. right; right. split; [done|lia].
Qed.

Lemma zero_budget_witness :
  let b := tree (exec int_compare [Spawn 5; Run 0] (system_init 0)) in
  let l := {| l_value := 3; retries := 0; node := None; parent := None;
              go_left := false |} in
  insert_start (E := Empty_set) b l
  = (b, {| l_value := 3; retries := 0; node := Some O; parent := None;
           go_left := false |}, Raised RetryExhausted) /\
  insert_start (E := Empty_set) (BST_init (-1)) l
  = ({| store := [new_Node 3]; _root := Some O; _max_retries := -1;
        _root_lock := false |}, l, Returned RootClaimed) /\
  t_status <$> tasks (exec int_compare
                        [Spawn 5; Spawn 3; Spawn 7; Run 0; Run 1; Run 2]
                        (system_init 0))
  = [Returned RootClaimed; Raised RetryExhausted; Raised RetryExhausted].
Proof.
  intros b l. split; [|split].
  - destruct (zero_budget (E := Empty_set) b l) as (H & _ & _).
    apply H; [simpl; lia|reflexivity].
  - destruct (zero_budget (E := Empty_set) (BST_init (-1)) l) as (_ & H & _).
    apply H; reflexivity.
  - reflexivity.
Defined.

(** C3, as the specification words it, fails: with [max_retries = 1] the
    [insert] of [7] below runs into exactly one conflict (task 1 attaches
    [3] under the root while task 2 awaits its comparison with the root),
    which is not more than [max_retries], and raises the retry error. *)
Lemma retry_exhausted_at_max_retries :
  let sched := [Spawn 5; Run 0; Spawn 3; Spawn 7; Run 1; Run 2; Run 1; Run 2] in
  let s := exec int_compare sched (system_init 1) in
  t_status <$> tasks s !! 2%nat = Some (Raised RetryExhausted) /\
  conflicts int_compare sched (system_init 1) 2 = 1 /\
  _max_retries (tree s) = 1 /\
  ~ (_max_retries (tree s) < conflicts int_compare sched (system_init 1) 2).
Proof. vm_compute. split_and!; try reflexivity. discriminate. Qed.

(** What the state of a call says about the conflicts it has run into. *)
Lemma retries_verdict {T E : Type} (compare : T -> T -> reply E)
    (max_retries : Z) (sched : list (action T)) (i : nat) (k : task T E) :
  tasks (exec compare sched (system_init max_retries)) !! i = Some k ->
  let c := conflicts compare sched (system_init max_retries) i in
  retries (t_locals k) = c /\
  match t_status k with
  | Fresh => c = 0
  | Returned RootClaimed => c = 0
  | Raised RetryExhausted => max_retries <= c /\ c = Z.max 0 max_retries
  | AwaitingCompare _ | Returned AttachedLeft | Returned AttachedRight
  | Raised (CompareError _) => 0 <= c < max_retries
  | WaitingLock | Running | Stuck | Returned RootInLoop => False
  end /\
  (t_status k <> Fresh -> t_status k <> Returned RootClaimed ->
   (t_status k = Raised RetryExhausted <-> max_retries <= c)) /\
  (finished k = true -> c < max_retries ->
   (exists x, t_status k = Returned x) \/
   (exists e, t_status k = Raised (CompareError e))).
Proof.
  intros Hk c.
  destruct (inv_reachable compare max_retries sched) as [t HInv].
  pose proof (inv_tasks _ _ _ HInv _ _ Hk) as Hok.
  pose proof (exec_max_retries compare sched (system_init max_retries)) as Hm.
  simpl in Hm.
  assert (Hc : retries (t_locals k) = c).
  { rewrite (retries_conflicts compare sched _ Leaf i k (inv_init _ _) Hk).
    unfold retries_at. simpl. lia. }
  unfold task_ok in Hok. rewrite Hm, Hc in Hok. unfold finished.
  split; [done|].
  destruct (t_status k) as [| | |s0|x|er|]; try done.
  - destruct Hok as [Hr _].
    split; [done|]. split; [|done]. intros _ _. split; [done|lia].
  - destruct x; try done.
    + split; [done|]. split; [done|]. intros _ _. left. by eexists.
    + split; [done|]. split; [intros _ _; split; [done|lia]|].
      intros _ _. left. by eexists.
    + split; [done|]. split; [intros _ _; split; [done|lia]|].
      intros _ _. left. by eexists.
  - destruct er as [|e].
    + split; [lia|]. split; [intros _ _; split; [lia|done]|]. intros _; lia.
    + split; [done|]. split; [intros _ _; split; [done|lia]|].
      intros _ _. right. by eexists.
Qed.


(** C3, amended.  Over any schedule from the empty tree, the retry counter
    of an [insert] is the number of conflicts it has run into (turns that
    found the version of their node changed behind the comparison), and:
    an [insert] that has raised the retry error has run into at least
    [max_retries] conflicts (none at all when [max_retries <= 0]); an
    [insert] that has attached its node, is still awaiting a comparison, or
    was ended by an exception of the comparison, has run into fewer than
    [max_retries]; the [insert] that claimed the root into none.  Hence for
    a call that has started and did not claim the root, the retry error is
    raised if and only if the conflicts number at least [max_retries], and
    a call that is over after fewer conflicts has returned, unless the
    comparison raised.  And a call does get there: given its turns without
    interruption it is over after at most one turn more than the tree has
    nodes, having returned (or raised the comparison's exception) if its
    conflicts then still number fewer than [max_retries]. *)
Theorem retry_exhausted_iff {T E : Type} (compare : T -> T -> reply E)
    (max_retries : Z) (sched : list (action T)) (i : nat) (k : task T E) :
  tasks (exec compare sched (system_init max_retries)) !! i = Some k ->
  let c := conflicts compare sched (system_init max_retries) i in
  retries (t_locals k) = c /\
  match t_status k with
  | Fresh => c = 0
  | Returned RootClaimed => c = 0
  | Raised RetryExhausted => max_retries <= c /\ c = Z.max 0 max_retries
  | AwaitingCompare _ | Returned AttachedLeft | Returned AttachedRight
  | Raised (CompareError _) => 0 <= c < max_retries
  | WaitingLock | Running | Stuck | Returned RootInLoop => False
  end /\
  (t_status k <> Fresh -> t_status k <> Returned RootClaimed ->
   (t_status k = Raised RetryExhausted <-> max_retries <= c)) /\
  (finished k = true -> c < max_retries ->
   (exists x, t_status k = Returned x) \/
   (exists e, t_status k = Raised (CompareError e))) /\
  (exists j k',
     (j <= length (store (tree (exec compare sched
                                  (system_init max_retries)))) + 1)%nat /\
     let sched' := sched ++ replicate j (Run i) in
     tasks (exec compare sched' (system_init max_retries)) !! i = Some k' /\
     finished k' = true /\
     (conflicts compare sched' (system_init max_retries) i < max_retries ->
      (exists x, t_status k' = Returned x) \/
      (exists e, t_status k' = Raised (CompareError e)))).
Proof.
  intros Hk c.
  destruct (retries_verdict compare max_retries sched i k Hk)
    as (H1 & H2 & H3 & H4).
  split_and!; [exact H1|exact H2|exact H3|exact H4|].
  destruct (inv_reachable compare max_retries sched) as [t HInv].
  destruct (solo_run_finishes compare _ t i k HInv Hk)
    as (j & Hj & k' & Hk' & Hfin).
  exists j, k'. split; [exact Hj|]. simpl.
  unfold exec in *. rewrite fold_left_app. split; [exact Hk'|].
  split; [exact Hfin|].
  intros Hc.
  destruct (retries_verdict compare max_retries
              (sched ++ replicate j (Run i)) i k') as (_ & _ & _ & H).
  { unfold exec. by rewrite fold_left_app. }
  by apply H.
Qed.

Lemma retry_exhausted_iff_witness :
  let sched := [Spawn 5; Run 0; Spawn 3; Spawn 7; Run 1; Run 2; Run 1; Run 2] in
  conflicts int_compare sched (system_init 1) 2 = 1 /\
  conflicts int_compare sched (system_init 2) 2 = 1.
Proof.
  intros sched. split.
  - destruct (retry_exhausted_iff int_compare 1 sched 2
                {| t_status := Raised RetryExhausted;
                   t_locals := {| l_value := 7; retries := 1; node := Some O;
                                  parent := None; go_left := false |} |}
                eq_refl) as (H & _).
    symmetry. exact H.
  - destruct (retry_exhausted_iff int_compare 2 sched 2
                {| t_status := AwaitingCompare
                                 {| saved_version := 1;
                                    saved_left := Some 1%nat;
                                    saved_right := None |};
                   t_locals := {| l_value := 7; retries := 1; node := Some O;
                                  parent := None; go_left := false |} |}
                eq_refl) as (H & _).
    symmetry. exact H.
Defined.

(** ** [CachedCompare] *)

Section CachedFacts.

Import Cached.

Context {T E : Type}.
Variable ident : T -> Z.
Variable compare : T -> T -> reply E.

#[local] Abbreviation call := (call ident compare).
#[local] Abbreviation calls := (calls ident compare).

Implicit Types (w : world) (a b : T).

Lemma call_hit_key w a b r :
  _cache (self w) !! (ident a, ident b) = Some r ->
  (call w a b).1 = Ret r /\ hit w (call w a b).2.
Proof. intros H. unfold call, Cached.call, probe. rewrite H. by simpl. Qed.

Lemma call_hit_rev w a b r :
  _cache (self w) !! (ident a, ident b) = None ->
  _cache (self w) !! (ident b, ident a) = Some r ->
  (call w a b).1 = Ret (- r) /\ hit w (call w a b).2.
Proof. intros H H'. unfold call, Cached.call, probe. rewrite H, H'. by simpl. Qed.

Lemma call_miss w a b r :
  _cache (self w) !! (ident a, ident b) = None ->
  _cache (self w) !! (ident b, ident a) = None ->
  compare a b = Ret r ->
  call w a b
  = (Ret r,
     {| self := {| _cache := <[(ident a, ident b) := r]> (_cache (self w));
                   hits := hits (self w);
                   misses := misses (self w) + 1 |};
        call_count := call_count w + 1 |}).
Proof.
  intros H H' Hr. unfold call, Cached.call, probe. by rewrite H, H', Hr.
Qed.

Lemma call_raise w a b e :
  _cache (self w) !! (ident a, ident b) = None ->
  _cache (self w) !! (ident b, ident a) = None ->
  compare a b = Exc e ->
  call w a b
  = (Exc e, {| self := self w; call_count := call_count w + 1 |}).
Proof.
  intros H H' He. unfold call, Cached.call, probe. by rewrite H, H', He.
Qed.

(** The four ways a call can go. *)
Lemma call_cases w a b :
  (exists r, _cache (self w) !! (ident a, ident b) = Some r /\
             (call w a b).1 = Ret r /\ hit w (call w a b).2) \/
  (exists r, _cache (self w) !! (ident a, ident b) = None /\
             _cache (self w) !! (ident b, ident a) = Some r /\
             (call w a b).1 = Ret (- r) /\ hit w (call w a b).2) \/
  (exists r, _cache (self w) !! (ident a, ident b) = None /\
             _cache (self w) !! (ident b, ident a) = None /\
             compare a b = Ret r /\
             call w a b
             = (Ret r,
                {| self := {| _cache := <[(ident a, ident b) := r]>
                                          (_cache (self w));
                              hits := hits (self w);
                              misses := misses (self w) + 1 |};
                   call_count := call_count w + 1 |})) \/
  (exists e, _cache (self w) !! (ident a, ident b) = None /\
             _cache (self w) !! (ident b, ident a) = None /\
             compare a b = Exc e /\
             call w a b
             = (Exc e, {| self := self w; call_count := call_count w + 1 |})).
Proof.
  destruct (_cache (self w) !! (ident a, ident b)) as [r|] eqn:Hk.
  { left. exists r. split; [done|]. by apply call_hit_key. }
  destruct (_cache (self w) !! (ident b, ident a)) as [r|] eqn:Hr.
  { right; left. exists r.
    destruct (call_hit_rev w a b r Hk Hr) as [H1 H2].
    exact (conj eq_refl (conj eq_refl (conj H1 H2))). }
  destruct (compare a b) as [r|e] eqn:Hc.
  - right; right; left. exists r.
    exact (conj eq_refl (conj eq_refl
             (conj eq_refl (call_miss w a b r Hk Hr Hc)))).
  - right; right; right. exists e.
    exact (conj eq_refl (conj eq_refl
             (conj eq_refl (call_raise w a b e Hk Hr Hc)))).
Qed.

(** After a call that returned, one orientation of the pair is cached, with
    the result the call returned. *)
Lemma call_computed w a b r :
  (call w a b).1 = Ret r ->
  let m := _cache (self (call w a b).2) in
  m !! (ident a, ident b) = Some r \/
  (m !! (ident a, ident b) = None /\ m !! (ident b, ident a) = Some (- r)).
Proof.
  intros Hret.
  destruct (call_cases w a b)
    as [(r' & Hk & H1 & _ & _ & _ & Hc)
       |[(r' & Hk & Hr & H1 & _ & _ & _ & Hc)
        |[(r' & Hk & Hr & _ & Heq)|(e & _ & _ & _ & Heq)]]].
  - simpl. rewrite Hc. left. congruence.
  - simpl. rewrite Hc. right. split; [done|].
    assert (r = - r') as -> by congruence. by rewrite Z.opp_involutive.
  - rewrite Heq in Hret |- *. simpl in *. left.
    assert (r' = r) as -> by congruence. apply lookup_insert_eq.
  - by rewrite Heq in Hret.
Qed.

Lemma call_cache_mono w a b key r :
  _cache (self w) !! key = Some r ->
  _cache (self (call w a b).2) !! key = Some r.
Proof.
  intros H.
  destruct (call_cases w a b)
    as [(r' & Hk & _ & _ & _ & _ & Hc)
       |[(r' & Hk & Hr & _ & _ & _ & _ & Hc)
        |[(r' & Hk & Hr & _ & Heq)|(e & _ & _ & _ & Heq)]]].
  - by rewrite Hc.
  - by rewrite Hc.
  - rewrite Heq. simpl. rewrite lookup_insert_ne; [done|]. intros <-. congruence.
  - by rewrite Heq.
Qed.

Lemma call_one_way w a b :
  one_way (_cache (self w)) -> one_way (_cache (self (call w a b).2)).
Proof.
  intros Hw.
  destruct (call_cases w a b)
    as [(r' & Hk & _ & _ & _ & _ & Hc)
       |[(r' & Hk & Hr & _ & _ & _ & _ & Hc)
        |[(r' & Hk & Hr & _ & Heq)|(e & _ & _ & _ & Heq)]]].
  - by rewrite Hc.
  - by rewrite Hc.
  - rewrite Heq. simpl. intros x y Hxy Hsome.
    destruct (decide ((ident a, ident b) = (x, y))) as [Hxy'|Hne].
    + simplify_eq. rewrite lookup_insert_ne; [done|]. intros ?; simplify_eq.
    + rewrite lookup_insert_ne in Hsome by done.
      destruct (decide ((ident a, ident b) = (y, x))) as [Heq'|Hne'].
      * simplify_eq. rewrite Hr in Hsome. by destruct Hsome.
      * rewrite lookup_insert_ne by done. by apply Hw.
  - by rewrite Heq.
Qed.

(** A call adds at most its own key to the cache. *)
Lemma call_cache_asked w a b key :
  is_Some (_cache (self (call w a b).2) !! key) ->
  is_Some (_cache (self w) !! key) \/ key = (ident a, ident b).
Proof.
  intros H.
  destruct (call_cases w a b)
    as [(r' & Hk & _ & _ & _ & _ & Hc)
       |[(r' & Hk & Hr & _ & _ & _ & _ & Hc)
        |[(r' & Hk & Hr & _ & Heq)|(e & _ & _ & _ & Heq)]]].
  - left. by rewrite <- Hc.
  - left. by rewrite <- Hc.
  - rewrite Heq in H. simpl in H.
    destruct (decide (key = (ident a, ident b))) as [->|Hne]; [by right|].
    left. by rewrite lookup_insert_ne in H.
  - left. by rewrite Heq in H.
Qed.

Lemma calls_cache_mono qs w key r :
  _cache (self w) !! key = Some r ->
  _cache (self (calls qs w)) !! key = Some r.
Proof.
  revert w. induction qs as [|[a b] qs IH]; intros w H; simpl; [done|].
  by apply IH, call_cache_mono.
Qed.

Lemma calls_one_way qs w :
  one_way (_cache (self w)) -> one_way (_cache (self (calls qs w))).
Proof.
  revert w. induction qs as [|[a b] qs IH]; intros w H; simpl; [done|].
  by apply IH, call_one_way.
Qed.

(** Every key of the cache was there before or has been asked about. *)
Lemma calls_cache_asked qs w key :
  is_Some (_cache (self (calls qs w)) !! key) ->
  is_Some (_cache (self w) !! key) \/ key ∈ asked ident qs.
Proof.
  revert w. induction qs as [|[a b] qs IH]; intros w H; [by left|].
  simpl in H. unfold asked. rewrite fmap_cons, elem_of_cons.
  destruct (IH _ H) as [H'|H']; [|by right; right].
  destruct (call_cache_asked _ _ _ _ H') as [?| ->]; [by left|].
  right. by left.
Qed.

Lemma one_way_init : one_way (_cache (self world_init)).
Proof. intros x y _ [r Hr]. cbn in Hr. by rewrite lookup_empty in Hr. Qed.

(** A pair no earlier call has asked about, in either orientation, is in
    the cache in neither. *)
Lemma calls_new_pair qs a b :
  (ident a, ident b) ∉ asked ident qs ->
  (ident b, ident a) ∉ asked ident qs ->
  _cache (self (calls qs world_init)) !! (ident a, ident b) = None /\
  _cache (self (calls qs world_init)) !! (ident b, ident a) = None.
Proof.
  intros Hk Hr. split; apply eq_None_not_Some; intros H;
    apply calls_cache_asked in H as [[r H]|H]; try done;
    cbn in H; by rewrite lookup_empty in H.
Qed.

End CachedFacts.


(** It fails as well for a wrapped comparison that raises: the first call
    of the new pair [(3, 7)] invokes it and counts no miss, and the second
    call of the pair is no hit: it invokes the wrapped comparison again. *)
Lemma cached_raise_counts_nothing :
  let w1 := (Cached.call id picky_compare Cached.world_init 3 7).2 in
  let w2 := (Cached.call id picky_compare w1 3 7).2 in
  (Cached.call id picky_compare Cached.world_init 3 7).1 = Exc 42%nat /\
  Cached.misses (Cached.self w1) = 0 /\ Cached.call_count w1 = 1 /\
  Cached.hits (Cached.self w2) = 0 /\ Cached.call_count w2 = 2.
Proof. vm_compute. by split_and!. Qed.



(** * Further properties of the tree *)

Section MoreShapeFacts.

Context {T E : Type}.
Variable compare : T -> T -> reply E.

Implicit Types (h : list (Node T)) (t : shape T) (p : option addr).

Lemma repr_value_in h p t a n :
  repr h p t -> a ∈ addrs t -> h !! a = Some n -> value n ∈ vals t.
Proof.
  revert p. induction t as [|l IHl a' x r IHr]; simpl; intros p Hrep Ha Hn.
  { by apply elem_of_nil in Ha. }
  destruct Hrep as (_ & n' & Hn' & Hx & Hl & Hr).
  rewrite elem_of_app, elem_of_cons in Ha. rewrite elem_of_app, elem_of_cons.
  destruct Ha as [Ha|[->|Ha]]; [left; eauto| |right; right; eauto].
  right; left. congruence.
Qed.

Lemma contains_true fuel h p v :
  contains_from compare fuel h p v = Some (Value true) ->
  exists x, x ∈ h /\ compare v (value x) = Ret 0.
Proof.
  revert p. induction fuel as [|fuel IH]; intros [n|]; simpl; try done.
  destruct (h !! n) as [x|] eqn:Hx; [|done].
  destruct (compare v (value x)) as [cmp|e'] eqn:Hc; [|done].
  destruct (cmp =? 0) eqn:H0; [|apply IH].
  intros _. apply Z.eqb_eq in H0 as ->. exists x. split; [|done].
  by eapply list_elem_of_lookup_2.
Qed.

End MoreShapeFacts.

(** X1.  Whatever the comparison does (inconsistent answers, exceptions),
    over any schedule [to_list] returns a permutation of the values whose
    [insert] has returned, and [__len__] returns the length of that list. *)
Theorem to_list_keeps_multiset {T E : Type} (compare : T -> T -> reply E)
    (max_retries : Z) (sched : list (action T)) (extra : nat) :
  let s := exec compare sched (system_init max_retries) in
  exists l,
    to_list (length (store (tree s)) + extra) (tree s) = Some l /\
    l ≡ₚ inserted (tasks s) /\
    len (length (store (tree s)) + extra) (tree s)
    = Some (Z.of_nat (length l)).
Proof.
  intros s.
  destruct (inv_reachable compare max_retries sched) as [t HInv].
  fold s in HInv. exists (vals t).
  assert (Hh : (height t <= length (store (tree s)) + extra)%nat).
  { pose proof (height_le_size t) as Hh.
    rewrite (Permutation_length (inv_addrs _ _ _ HInv)), length_seq in Hh.
    lia. }
  split_and!.
  - unfold to_list. by rewrite (inorder_repr _ _ t); [|apply HInv|].
  - apply HInv.
  - unfold len. rewrite (count_repr _ _ t); [|apply HInv|done].
    by rewrite length_vals_addrs.
Qed.



Section MoreOrdered.

Context {T E : Type}.
Variable cmp : T -> T -> Z.
Hypothesis cmp_sign : forall a b, cmp a b < 0 <-> 0 < cmp b a.
Hypothesis cmp_trans : forall a b c, cmp a b <= 0 -> cmp b c <= 0 -> cmp a c <= 0.

Implicit Types (t : shape T) (v x : T).

Lemma cmp_zero_sym a b : cmp a b = 0 -> cmp b a = 0.
Proof. intros H. pose proof (cmp_sign a b). pose proof (cmp_sign b a). lia. Qed.

(** The search for [v] in an ordered tree ends at a value that compares
    equal to [v] whenever the tree holds one. *)
Lemma search_equivalent t v :
  ordered (answering (E := E) cmp) t ->
  (exists x, x ∈ vals t /\ cmp v x = 0) ->
  search (answering (E := E) cmp) v t = Value true.
Proof.
  induction t as [|l IHl a y r IHr]; simpl.
  { by intros _ (x & ?%elem_of_nil & _). }
  intros (Hl & Hr & Hol & Hor) (x & Hx & Hvx). unfold answering at 1.
  destruct (cmp v y =? 0) eqn:H0; [done|]. apply Z.eqb_neq in H0.
  pose proof (cmp_zero_sym _ _ Hvx) as Hxv.
  rewrite elem_of_app, elem_of_cons in Hx.
  destruct (cmp v y <? 0) eqn:Hlt.
  - apply Z.ltb_lt in Hlt. apply IHl; [done|]. exists x. split; [|done].
    destruct Hx as [Hx|[->|Hx]]; [done|lia|].
    apply Hr, side_answering, Z.ltb_ge in Hx.
    assert (cmp x y <= 0) by (apply (cmp_trans x v y); lia).
    assert (cmp y x = 0) by (apply cmp_zero_sym; lia).
    assert (cmp y v <= 0) by (apply (cmp_trans y x v); lia).
    apply cmp_sign in Hlt. lia.
  - apply Z.ltb_ge in Hlt. apply IHr; [done|]. exists x. split; [|done].
    destruct Hx as [Hx|[->|Hx]]; [|lia|done].
    apply Hl, side_answering, Z.ltb_lt in Hx.
    assert (cmp v y <= 0) by (apply (cmp_trans v x y); lia). lia.
Qed.

Lemma search_true_inv t v :
  search (answering (E := E) cmp) v t = Value true ->
  exists x, x ∈ vals t /\ cmp v x = 0.
Proof.
  induction t as [|l IHl a y r IHr]; simpl; [done|]. unfold answering at 1.
  destruct (cmp v y =? 0) eqn:H0.
  { intros _. exists y. apply Z.eqb_eq in H0. split; [|done].
    apply elem_of_app; right. apply elem_of_cons; by left. }
  destruct (cmp v y <? 0); intros (x & Hx & Hvx)%IHl || intros (x & Hx & Hvx)%IHr;
    exists x; (split; [|done]); rewrite elem_of_app, elem_of_cons; tauto.
Qed.

Lemma search_answers t v :
  exists b, search (answering (E := E) cmp) v t = Value b.
Proof.
  induction t as [|l IHl a y r IHr]; simpl; [by eexists|].
  unfold answering at 1. destruct (cmp v y =? 0); [by eexists|].
  by destruct (cmp v y <? 0).
Qed.

End MoreOrdered.



(** X4.  With a comparison that answers a total order, two runs (any
    schedules, any retry budgets) in which the same multiset of values was
    handed to [insert] and every call has returned yield the same
    [to_list]. *)
Theorem to_list_order_independent {T E : Type} (cmp : T -> T -> Z)
    (max1 max2 : Z) (sched1 sched2 : list (action T)) (extra1 extra2 : nat) :
  (forall a b, cmp a b < 0 <-> 0 < cmp b a) ->
  (forall a b c, cmp a b <= 0 -> cmp b c <= 0 -> cmp a c <= 0) ->
  (forall a b, cmp a b = 0 -> a = b) ->
  let compare := answering (E := E) cmp in
  let s1 := exec compare sched1 (system_init max1) in
  let s2 := exec compare sched2 (system_init max2) in
  spawned sched1 ≡ₚ spawned sched2 ->
  Forall (fun k => is_returned k = true) (tasks s1) ->
  Forall (fun k => is_returned k = true) (tasks s2) ->
  exists l,
    to_list (length (store (tree s1)) + extra1) (tree s1) = Some l /\
    to_list (length (store (tree s2)) + extra2) (tree s2) = Some l.
Proof.
  intros Hsign Htrans Heq compare s1 s2 Hperm Hall1 Hall2.
  destruct (inv_reachable compare max1 sched1) as [t1 H1].
  destruct (inv_reachable compare max2 sched2) as [t2 H2].
  fold s1 in H1. fold s2 in H2.
  assert (Hfuel : forall (s : system T E) t extra, Inv compare s t ->
            to_list (length (store (tree s)) + extra) (tree s)
            = Some (vals t)).
  { intros s t extra HInv. unfold to_list.
    rewrite (inorder_repr _ _ t); [done|apply HInv|].
    pose proof (height_le_size t) as Hh.
    rewrite (Permutation_length (inv_addrs _ _ _ HInv)), length_seq in Hh.
    lia. }
  exists (vals t1). split; [by apply Hfuel|].
  rewrite (Hfuel _ _ _ H2). f_equal.
  apply (StronglySorted_unique_strong (fun a b => cmp a b <= 0)).
  - intros x1 x2 _ _ Hle Hge. apply Heq.
    pose proof (Hsign x1 x2). pose proof (Hsign x2 x1). lia.
  - apply (ordered_sorted (E := E)); [done..|apply H2].
  - apply (ordered_sorted (E := E)); [done..|apply H1].
  - rewrite (inv_vals _ _ _ H1), (inv_vals _ _ _ H2).
    rewrite (inserted_all _ Hall1), (inserted_all _ Hall2).
    unfold s1, s2. rewrite !task_values. simpl. by symmetry.
Qed.

Lemma to_list_order_independent_witness :
  exists l,
    to_list 3 (tree (exec int_compare
                       [Spawn 5; Spawn 3; Spawn 7; Run 0; Run 1; Run 2;
                        Run 1; Run 2; Run 2]
                       (system_init 100))) = Some l /\
    to_list 3 (tree (exec int_compare
                       [Spawn 7; Run 0; Spawn 3; Run 1; Run 1; Spawn 5;
                        Run 2; Run 2; Run 2]
                       (system_init 5))) = Some l.
Proof.
  apply (to_list_order_independent (E := Empty_set) Z.sub 100 5
           [Spawn 5; Spawn 3; Spawn 7; Run 0; Run 1; Run 2;
            Run 1; Run 2; Run 2]
           [Spawn 7; Run 0; Spawn 3; Run 1; Run 1; Spawn 5;
            Run 2; Run 2; Run 2] 0 0).
  - intros a b. lia.
  - intros a b c. lia.
  - intros a b. lia.
  - cbn. apply (perm_trans (l' := [5; 7; 3])).
    + apply perm_skip, perm_swap.
    + apply perm_trans with (l' := [7; 5; 3]); [apply perm_swap|].
      apply perm_skip, perm_swap.
  - vm_compute. repeat constructor.
  - vm_compute. repeat constructor.
Defined.

(** X5.  In every state reachable from the empty tree, the version of a
    node is the number of its children (so between [0] and [2]), and the
    children of a node were created after it: their addresses lie above
    its own, inside the store, so no chain of children ever returns to a
    node. *)
Theorem version_counts_children {T E : Type} (compare : T -> T -> reply E)
    (max_retries : Z) (sched : list (action T)) (a : addr) (n : Node T) :
  let s := exec compare sched (system_init max_retries) in
  store (tree s) !! a = Some n ->
  version n = populated None (left n) + populated None (right n) /\
  0 <= version n <= 2 /\
  (forall c, left n = Some c \/ right n = Some c ->
             (a < c < length (store (tree s)))%nat).
Proof.
  intros s Hn.
  destruct (inv_reachable compare max_retries sched) as [t HInv].
  fold s in HInv.
  destruct (exec_store compare sched (system_init max_retries)) as [_ H2].
  destruct (H2 a n eq_refl Hn) as (_ & _ & _ & Hver). simpl in Hver.
  split; [exact Hver|]. split.
  { rewrite Hver. unfold populated. simpl.
    destruct (left n), (right n); simpl; lia. }
  intros c Hc.
  assert (exists d, slot d n = Some c) as [d Hd].
  { destruct Hc; [by exists true|by exists false]. }
  split; [by eapply (inv_up _ _ _ HInv)|].
  apply (inv_addr_in _ _ _ _ HInv).
  eapply child_in_addrs; [apply HInv|by eapply inv_lookup_in|done..].
Qed.

Lemma version_counts_children_witness :
  let s := exec int_compare
             [Spawn 5; Spawn 3; Spawn 7; Run 0; Run 1; Run 2; Run 1; Run 2;
              Run 2]
             (system_init 100) in
  store (tree s) !! O
  = Some {| value := 5; left := Some 1%nat; right := Some 2%nat;
            version := 2 |} /\
  (1 < length (store (tree s)))%nat.
Proof.
  intros s. split; [reflexivity|].
  destruct (version_counts_children int_compare 100
              [Spawn 5; Spawn 3; Spawn 7; Run 0; Run 1; Run 2; Run 1; Run 2;
               Run 2] O
              {| value := 5; left := Some 1%nat; right := Some 2%nat;
                 version := 2 |} eq_refl) as (_ & _ & Hc).
  exact (proj2 (Hc 1%nat (or_introl eq_refl))).
Defined.

(** ** Calls made one at a time *)

Section SequentialFacts.

Context {T E : Type}.
Variable cmp : T -> T -> Z.

Implicit Types (h : list (Node T)) (t : shape T) (p : option addr).
Implicit Types (v x : T) (l : list T).

Lemma repr_inj h p t t' : repr h p t -> repr h p t' -> t = t'.
Proof.
  revert p t'. induction t as [|l IHl a x r IHr]; intros p t' Hrep Hrep'.
  { simpl in Hrep. subst p. by apply repr_None in Hrep'. }
  destruct Hrep as (-> & n & Hn & Hx & Hl & Hr).
  apply repr_Some in Hrep' as (l' & x' & r' & n' & -> & Hn' & Hx' & Hl' & Hr').
  assert (n' = n) as -> by congruence.
  f_equal; [by eapply IHl|congruence|by eapply IHr].
Qed.

(** Grafting at the node where the search for [v] has arrived is
    inserting [v] into the search tree. *)
Lemma graft_tinsert h p t n nd d c v :
  repr h p t -> NoDup (addrs t) -> n ∈ addrs t ->
  h !! n = Some nd -> slot d nd = None ->
  fits (answering (E := E) cmp) v n t ->
  side (answering (E := E) cmp) d v (value nd) ->
  graft n d c v t = tinsert cmp c v t.
Proof.
  intros Hrep Hnd Hn Hlook Hslot Hfit Hside. revert p Hrep Hnd Hn Hfit.
  induction t as [|l IHl a x r IHr]; intros p Hrep Hnd Hn Hfit.
  { by apply elem_of_nil in Hn. }
  pose proof (NoDup_addrs_Br _ _ _ _ Hnd) as (Hndl & Hndr & Hal & Har & Hdisj).
  destruct Hrep as (_ & n' & Hn' & Hx & Hl & Hr).
  destruct Hfit as [Hfl Hfr]. simpl.
  destruct (decide (a = n)) as [->|Hne].
  - assert (n' = nd) as -> by congruence. subst x.
    apply side_answering in Hside. rewrite Hside.
    destruct d; simpl in Hslot.
    + rewrite Hslot in Hl. by apply repr_None in Hl as ->.
    + rewrite Hslot in Hr. by apply repr_None in Hr as ->.
  - simpl in Hn. rewrite elem_of_app, elem_of_cons in Hn.
    destruct Hn as [Hn|[->|Hn]]; [|done|].
    + destruct (Hfl Hn) as [Hs Hf]. apply side_answering in Hs. rewrite Hs.
      rewrite (graft_notin n d c v r) by (intros ?; eauto).
      f_equal. by eapply IHl.
    + destruct (Hfr Hn) as [Hs Hf]. apply side_answering in Hs. rewrite Hs.
      rewrite (graft_notin n d c v l) by (intros ?; eauto).
      f_equal. by eapply IHr.
Qed.

Lemma insort_before v y l1 l2 :
  cmp v y < 0 -> insort cmp v (l1 ++ y :: l2) = insort cmp v l1 ++ y :: l2.
Proof.
  intros Hlt. induction l1 as [|z l1 IH]; simpl.
  - by destruct (Z.ltb_spec (cmp v y) 0); [|lia].
  - destruct (cmp v z <? 0); [done|]. by rewrite IH.
Qed.

Lemma insort_behind v l1 l2 :
  (forall z, z ∈ l1 -> 0 <= cmp v z) ->
  insort cmp v (l1 ++ l2) = l1 ++ insort cmp v l2.
Proof.
  induction l1 as [|z l1 IH]; intros Hge; simpl; [done|].
  destruct (Z.ltb_spec (cmp v z) 0) as [Hlt|_].
  - pose proof (Hge z ltac:(by left)). lia.
  - rewrite IH; [done|]. intros z' Hz'. apply Hge. by right.
Qed.

(** In-order, inserting into an ordered tree is inserting into the sorted
    list. *)
Lemma vals_tinsert t c v :
  (forall a b, cmp a b < 0 <-> 0 < cmp b a) ->
  (forall a b c, cmp a b <= 0 -> cmp b c <= 0 -> cmp a c <= 0) ->
  ordered (answering (E := E) cmp) t ->
  vals (tinsert cmp c v t) = insort cmp v (vals t).
Proof.
  intros Hsign Htrans. induction t as [|l IHl a x r IHr]; simpl; [done|].
  intros (Hl & Hr & Hol & Hor).
  destruct (Z.ltb_spec (cmp v x) 0) as [Hlt|Hge]; simpl.
  - by rewrite IHl, insort_before.
  - rewrite IHr by done.
    rewrite (insort_behind v (vals l) (x :: vals r)).
    + simpl. by destruct (Z.ltb_spec (cmp v x) 0); [lia|].
    + intros z Hz. apply Hl, side_answering, Z.ltb_lt in Hz.
      destruct (Z.le_gt_cases 0 (cmp v z)) as [|Hvz]; [done|].
      assert (cmp v x <= 0) by (apply (Htrans v z x); lia).
      assert (cmp x v <= 0).
      { pose proof (Hsign x v). pose proof (Hsign v x). lia. }
      assert (cmp z v <= 0) by (apply (Htrans z x v); lia).
      apply Hsign in Hvz. lia.
Qed.

End SequentialFacts.

Section SoloFacts.

#[local] Arguments insert_loop : simpl never.

Context {T E : Type}.
Variable compare : T -> T -> reply E.

Implicit Types (b : BST T) (l : locals T) (k : task T E) (s : system T E).
Implicit Types (t : shape T).

(** The locals after a trusted comparison with node [n] that sent the
    task to the side [d]. *)
Lemma turn_trusted s t i l n nd c :
  Inv compare s t ->
  tasks s !! i = Some {| t_status := AwaitingCompare (snap nd);
                         t_locals := l |} ->
  node l = Some n -> store (tree s) !! n = Some nd ->
  compare (l_value l) (value nd) = Ret c ->
  let d := c <? 0 in
  let l1 := {| l_value := l_value l; retries := retries l;
               node := slot d nd; parent := Some n; go_left := d |} in
  match slot d nd with
  | Some ch =>
      exists nc, store (tree s) !! ch = Some nc /\
        exec_action compare s (Run i)
        = {| tree := tree s;
             tasks := <[i := {| t_status := AwaitingCompare (snap nc);
                                t_locals := l1 |}]> (tasks s) |}
  | None =>
      exec_action compare s (Run i)
      = {| tree := attached (tree s) n nd d (l_value l);
           tasks := <[i := {| t_status := Returned (attach_site d);
                              t_locals := l1 |}]> (tasks s) |}
  end.
Proof.
  intros HInv Hk Hn Hnd Hc d l1.
  pose proof (inv_tasks _ _ _ HInv _ _ Hk) as Hok.
  unfold task_ok in Hok. simpl in Hok. destruct Hok as (Hret & _).
  assert (Hguard : (retries l1 <? _max_retries (tree s)) = true)
    by (apply Z.ltb_lt; simpl; lia).
  assert (Hres : resume compare (tree s)
                   {| t_status := AwaitingCompare (snap nd); t_locals := l |}
                 = insert_loop loop_fuel (tree s) l1).
  { unfold resume, pending_reply. simpl. rewrite Hn. simpl. rewrite Hnd.
    simpl. rewrite Hc. unfold after_compare. rewrite Hn, Hnd, Z.eqb_refl.
    unfold l1, d. simpl. by destruct (c <? 0). }
  simpl. rewrite Hk, Hres.
  destruct (slot d nd) as [ch|] eqn:Hslot.
  - assert (Hch : ch ∈ addrs t).
    { eapply (child_in_addrs _ _ _ n nd);
        [exact (inv_repr _ _ _ HInv)|by eapply inv_lookup_in|done..]. }
    apply (inv_addr_in _ _ _ _ HInv), lookup_lt_is_Some_2 in Hch as [nc Hnc].
    exists nc. split; [done|].
    by rewrite (insert_loop_at_node _ _ ch nc), Hguard.
  - by rewrite (insert_loop_attach _ _ n nd), Hguard.
Qed.

(** A turn given to a call that is over changes nothing. *)
Lemma exec_finished s i k j :
  tasks s !! i = Some k -> finished k = true ->
  exec compare (replicate j (Run i)) s = s.
Proof.
  intros Hk Hf. induction j as [|j IH]; simpl; [done|].
  rewrite Hk. unfold resume. unfold finished in Hf.
  destruct k as [st l]; simpl in *.
  destruct st; try done; simpl; rewrite list_insert_id by done;
    by destruct s.
Qed.

Lemma exec_cons a sched s :
  exec compare (a :: sched) s = exec compare sched (exec_action compare s a).
Proof. done. Qed.

Lemma exec_app sched sched' s :
  exec compare (sched ++ sched') s = exec compare sched' (exec compare sched s).
Proof. unfold exec. apply fold_left_app. Qed.

End SoloFacts.

Section SequentialRuns.

#[local] Arguments insert_loop : simpl never.
#[local] Arguments exec_action : simpl never.

Context {T E : Type}.
Variable cmp : T -> T -> Z.

#[local] Abbreviation compare := (answering (E := E) cmp).

Implicit Types (b : BST T) (l : locals T) (k : task T E) (s : system T E).
Implicit Types (t : shape T).

Lemma inv_same_tree s s' t t' :
  Inv compare s t -> Inv compare s' t' -> tree s' = tree s -> t' = t.
Proof.
  intros H H' Heq. pose proof (inv_repr _ _ _ H') as Hrep. rewrite Heq in Hrep.
  eapply repr_inj; [exact Hrep|apply H].
Qed.

(** Left alone with an answering comparison, a task whose snapshot is
    current walks down the search path of its value and attaches there. *)
Lemma solo_run_attaches m s t i l n nd :
  Inv compare s t ->
  tasks s !! i = Some {| t_status := AwaitingCompare (snap nd);
                         t_locals := l |} ->
  node l = Some n -> store (tree s) !! n = Some nd ->
  (length (store (tree s)) - n <= m)%nat ->
  exists j p pn l',
    (j <= m)%nat /\
    exec compare (replicate j (Run i)) s
    = {| tree := attached (tree s) p pn (go_left l') (l_value l);
         tasks := <[i := {| t_status := Returned (attach_site (go_left l'));
                            t_locals := l' |}]> (tasks s) |} /\
    l_value l' = l_value l /\ retries l' = retries l /\
    store (tree s) !! p = Some pn /\ slot (go_left l') pn = None /\
    fits compare (l_value l) p t /\
    side compare (go_left l') (l_value l) (value pn).
Proof.
  revert s l n nd. induction m as [|m IH]; intros s l n nd HInv Hk Hn Hnd Hm.
  { apply lookup_lt_Some in Hnd. lia. }
  pose proof (inv_tasks _ _ _ HInv _ _ Hk) as Hok.
  unfold task_ok in Hok. simpl in Hok.
  destruct Hok as (Hret & n' & nd' & Hn' & Hnd' & _ & _ & Hfit).
  assert (n' = n) as -> by congruence.
  pose proof (turn_trusted compare s t i l n nd _ HInv Hk Hn Hnd eq_refl)
    as Hturn. cbv zeta in Hturn.
  set (d := cmp (l_value l) (value nd) <? 0) in *.
  assert (Hside : side compare d (l_value l) (value nd))
    by (by apply side_answering).
  destruct (slot d nd) as [ch|] eqn:Hslot.
  - destruct Hturn as (nc & Hnc & Hturn).
    destruct (inv_step compare s t (Run i) HInv) as [t' HInv'].
    assert (t' = t) as ->.
    { eapply inv_same_tree; [exact HInv|exact HInv'|]. by rewrite Hturn. }
    rewrite Hturn in HInv'.
    assert (Hi : (i < length (tasks s))%nat) by (by eapply lookup_lt_Some).
    destruct (IH _ {| l_value := l_value l; retries := retries l;
                      node := Some ch; parent := Some n; go_left := d |}
                ch nc HInv') as (j & p & pn & l' & Hj & Hrun & Hrest).
    + simpl. by apply list_lookup_insert_eq.
    + done.
    + done.
    + simpl. pose proof (inv_up _ _ _ HInv _ _ _ _ Hnd Hslot). lia.
    + exists (S j), p, pn, l'. split; [lia|]. split; [|exact Hrest].
      rewrite replicate_S, exec_cons, Hturn, Hrun. simpl.
      by rewrite list_insert_insert_eq.
  - exists 1%nat, n, nd,
      {| l_value := l_value l; retries := retries l; node := None;
         parent := Some n; go_left := d |}.
    split; [lia|]. change (replicate 1 (Run i)) with [Run (T := T) i].
    by rewrite exec_cons, Hturn.
Qed.

(** [await tree.insert(v)] with no other call in flight and a positive
    budget: the call returns without a retry, and the tree is the search
    tree with [v] inserted. *)
Lemma insert_now_spec s t v :
  Inv compare s t -> 0 < _max_retries (tree s) ->
  exists x l',
    Inv compare (insert_now compare s v)
      (tinsert cmp (length (store (tree s))) v t) /\
    tasks (insert_now compare s v)
    = tasks s ++ [{| t_status := Returned x; t_locals := l' |}] /\
    l_value l' = v /\ retries l' = 0 /\
    _max_retries (tree (insert_now compare s v)) = _max_retries (tree s).
Proof.
  intros HInv Hmax. unfold insert_now.
  set (i := length (tasks s)). set (m := length (store (tree s))).
  rewrite replicate_S, !exec_cons.
  destruct (inv_step compare s t (Spawn v) HInv) as [t1 H1].
  assert (t1 = t) as -> by (by eapply inv_same_tree).
  change (exec_action compare s (Spawn v))
    with {| tree := tree s; tasks := tasks s ++ [fresh_task v] |} in *.
  set (s1 := {| tree := tree s; tasks := tasks s ++ [fresh_task v] |}) in *.
  assert (Hk1 : tasks s1 !! i = Some (fresh_task v)).
  { simpl. rewrite lookup_app_r by done. by rewrite Nat.sub_diag. }
  assert (Hins : forall k', <[i := k']> (tasks s1) = tasks s ++ [k']).
  { intros k'. simpl. rewrite insert_app_r_alt by done.
    by rewrite Nat.sub_diag. }
  destruct (_root (tree s)) as [r|] eqn:Hroot.
  - pose proof (inv_repr _ _ _ HInv) as Hrep. rewrite Hroot in Hrep.
    pose proof (root_in_addrs _ _ _ Hrep) as Hr.
    apply (inv_addr_in _ _ _ _ HInv), lookup_lt_is_Some_2 in Hr as [nr Hnr].
    set (l0 := {| l_value := v; retries := 0; node := Some r; parent := None;
                  go_left := false |}).
    assert (Hturn : exec_action compare s1 (Run i)
                    = {| tree := tree s;
                         tasks := <[i := {| t_status := AwaitingCompare (snap nr);
                                            t_locals := l0 |}]> (tasks s1) |}).
    { unfold exec_action. rewrite Hk1. unfold resume. simpl.
      unfold insert_start, enter_loop. simpl. rewrite Hroot. simpl.
      rewrite (insert_loop_at_node _ _ r nr); [|done..]. simpl.
      by destruct (Z.ltb_spec 0 (_max_retries (tree s))); [|lia]. }
    destruct (inv_step compare s1 t (Run i) H1) as [t2 H2].
    assert (t2 = t) as ->.
    { eapply inv_same_tree; [exact H1|exact H2|]. by rewrite Hturn. }
    rewrite Hturn in H2 |- *.
    destruct (solo_run_attaches m _ t i l0 r nr H2)
      as (j & p & pn & l' & Hj & Hrun & Hv & Hret & Hpn & Hslot & Hfit & Hside).
    { simpl. apply list_lookup_insert_eq. by eapply lookup_lt_Some. }
    { done. } { done. } { simpl. unfold m. lia. }
    change (l_value l0) with v in *.
    assert (Hsplit : replicate m (Run (T := T) i)
                     = replicate j (Run i) ++ replicate (m - j) (Run i)).
    { rewrite <- replicate_add. f_equal. lia. }
    rewrite Hsplit, exec_app, Hrun. simpl in Hpn, Hrun |- *.
    rewrite list_insert_insert_eq, Hins.
    rewrite (exec_finished compare _ i
               {| t_status := Returned (attach_site (go_left l'));
                  t_locals := l' |} (m - j));
      [|simpl; rewrite lookup_app_r by done; by rewrite Nat.sub_diag|done].
    exists (attach_site (go_left l')), l'.
    split; [|by rewrite Hret].
    pose proof (inv_attach compare _ _ i
                  {| t_status := AwaitingCompare (snap nr); t_locals := l0 |}
                  l' p pn H2) as Hatt. simpl in Hatt.
    rewrite list_insert_insert_eq, !Hins, Hv in Hatt.
    rewrite <- (graft_tinsert (E := E) cmp (store (tree s)) (Some r) t p pn
                  (go_left l') m v); try done.
    + apply Hatt; try done.
      * rewrite lookup_app_r by done. by rewrite Nat.sub_diag.
      * rewrite Hret. simpl. lia.
    + by eapply inv_NoDup.
    + by eapply inv_lookup_in.
  - pose proof (inv_repr _ _ _ HInv) as Hrep. rewrite Hroot in Hrep.
    apply repr_None in Hrep as ->.
    assert (Hm : m = O).
    { unfold m. pose proof (Permutation_length (inv_addrs _ _ _ HInv)) as Hl.
      rewrite length_seq in Hl. simpl in Hl. lia. }
    rewrite Hm. change (replicate 0 (Run (T := T) i)) with (@nil (action T)).
    cbn [exec fold_left].
    set (l0 := {| l_value := v; retries := 0; node := None; parent := None;
                  go_left := false |}).
    assert (Hturn : exec_action compare s1 (Run i)
                    = {| tree := {| store := store (tree s) ++ [new_Node v];
                                    _root := Some (length (store (tree s)));
                                    _max_retries := _max_retries (tree s);
                                    _root_lock := false |};
                         tasks := <[i := {| t_status := Returned RootClaimed;
                                            t_locals := l0 |}]>
                                    (tasks s1) |}).
    { unfold exec_action. rewrite Hk1. unfold resume. simpl.
      unfold insert_start, with_root_lock. simpl.
      by rewrite Hroot, (inv_lock _ _ _ HInv). }
    rewrite Hturn, Hins. exists RootClaimed, l0.
    split; [|done].
    pose proof (inv_claim compare s1 Leaf i (fresh_task v) l0
                  {| store := store (tree s) ++ [new_Node v];
                     _root := Some (length (store (tree s)));
                     _max_retries := _max_retries (tree s);
                     _root_lock := false |}
                  H1 Hk1 eq_refl Hroot eq_refl eq_refl eq_refl eq_refl
                  eq_refl) as Hcl.
    rewrite Hins in Hcl. simpl in Hcl |- *. exact Hcl.
Qed.

End SequentialRuns.

Lemma insert_each_spec {T E : Type} (cmp : T -> T -> Z) (vs : list T)
    (s : system T E) (t : shape T) :
  Inv (answering cmp) s t -> 0 < _max_retries (tree s) ->
  exists t' ks,
    Inv (answering cmp) (insert_each (answering cmp) vs s) t' /\
    tasks (insert_each (answering cmp) vs s) = tasks s ++ ks /\
    Forall (fun k => is_returned k = true /\ retries (t_locals k) = 0) ks /\
    task_value <$> ks = vs /\
    ((forall a b, cmp a b < 0 <-> 0 < cmp b a) ->
     (forall a b c, cmp a b <= 0 -> cmp b c <= 0 -> cmp a c <= 0) ->
     vals t' = fold_left (fun acc v => insort cmp v acc) vs (vals t)).
Proof.
  revert s t. induction vs as [|v vs IH]; intros s t HInv Hmax.
  { exists t, []. rewrite app_nil_r. by split_and!. }
  destruct (insert_now_spec cmp s t v HInv Hmax)
    as (x & l' & H1 & Ht & Hv & Hr & Hm).
  destruct (IH _ _ H1) as (t' & ks & H' & Ht' & Hall & Hvs & Hvals).
  { by rewrite Hm. }
  exists t', ({| t_status := Returned x; t_locals := l' |} :: ks).
  split_and!.
  - exact H'.
  - simpl. rewrite Ht', Ht, <- app_assoc. done.
  - by constructor.
  - rewrite fmap_cons. by f_equal.
  - intros Hsign Htrans. simpl. rewrite (Hvals Hsign Htrans).
    f_equal. apply (vals_tinsert (E := E)); [done..|apply HInv].
Qed.

(** X6.  With a positive retry budget and a comparison that answers (be
    it inconsistent), calls made one at a time on a fresh tree
    ([for v in vs: await tree.insert(v)]) all return, none of them after a
    retry, and [__len__] is then the number of values. *)
Theorem sequential_inserts_return {T E : Type} (cmp : T -> T -> Z)
    (max_retries : Z) (vs : list T) (extra : nat) :
  0 < max_retries ->
  let s := insert_each (answering (E := E) cmp) vs (system_init max_retries) in
  task_value <$> tasks s = vs /\
  Forall (fun k => is_returned k = true /\ retries (t_locals k) = 0) (tasks s) /\
  len (length (store (tree s)) + extra) (tree s)
  = Some (Z.of_nat (length vs)).
Proof.
  intros Hmax s.
  destruct (insert_each_spec (E := E) cmp vs (system_init max_retries) Leaf)
    as (t' & ks & HInv & Ht & Hall & Hvs & _); [apply inv_init|done|].
  fold s in HInv, Ht. simpl in Ht. rewrite Ht.
  split_and!; [done|done|].
  unfold len. rewrite (count_repr _ _ t'); [|apply HInv|].
  - f_equal. f_equal.
    rewrite <- length_vals_addrs, (Permutation_length (inv_vals _ _ _ HInv)).
    rewrite Ht. unfold inserted.
    rewrite length_fmap, <- Hvs, length_fmap. f_equal.
    clear -Hall. induction Hall as [|k ks [Hk _] _ IH]; [done|].
    rewrite filter_cons. destruct (decide _); [by f_equal|done].
  - pose proof (height_le_size t') as Hh.
    rewrite (Permutation_length (inv_addrs _ _ _ HInv)), length_seq in Hh.
    lia.
Qed.

Lemma sequential_inserts_return_witness :
  let s := insert_each int_compare [5; 3; 7; 1; 9] (system_init 1) in
  task_value <$> tasks s = [5; 3; 7; 1; 9] /\
  len 5 (tree s) = Some 5.
Proof.
  intros s.
  destruct (sequential_inserts_return (E := Empty_set) Z.sub 1
              [5; 3; 7; 1; 9] 0 ltac:(lia)) as (Hv & _ & Hl).
  split; [exact Hv|]. exact Hl.
Defined.

(** X7.  With a positive retry budget and a comparison that answers a
    consistent ordering, [to_list] after calls made one at a time on a
    fresh tree is the insertion sort of the values in the order of the
    calls: each value stands behind the values it does not precede, so
    values that compare equal keep the order in which they were
    inserted. *)
Theorem sequential_inserts_sort {T E : Type} (cmp : T -> T -> Z)
    (max_retries : Z) (vs : list T) (extra : nat) :
  0 < max_retries ->
  (forall a b, cmp a b < 0 <-> 0 < cmp b a) ->
  (forall a b c, cmp a b <= 0 -> cmp b c <= 0 -> cmp a c <= 0) ->
  let s := insert_each (answering (E := E) cmp) vs (system_init max_retries) in
  to_list (length (store (tree s)) + extra) (tree s)
  = Some (fold_left (fun acc v => insort cmp v acc) vs []).
Proof.
  intros Hmax Hsign Htrans s.
  destruct (insert_each_spec (E := E) cmp vs (system_init max_retries) Leaf)
    as (t' & ks & HInv & _ & _ & _ & Hvals); [apply inv_init|done|].
  fold s in HInv. unfold to_list.
  rewrite (inorder_repr _ _ t'); [|apply HInv|].
  - by rewrite (Hvals Hsign Htrans).
  - pose proof (height_le_size t') as Hh.
    rewrite (Permutation_length (inv_addrs _ _ _ HInv)), length_seq in Hh.
    lia.
Qed.

(** Pairs compared by their first component keep their order of arrival. *)
Lemma sequential_inserts_sort_witness :
  let by_key := fun a b : Z * Z => a.1 - b.1 in
  to_list 4 (tree (insert_each (answering (E := Empty_set) by_key)
                     [(5, 0); (3, 0); (5, 1); (3, 1)] (system_init 100)))
  = Some [(3, 0); (3, 1); (5, 0); (5, 1)].
Proof.
  intros by_key.
  exact (sequential_inserts_sort (E := Empty_set) by_key 100
           [(5, 0); (3, 0); (5, 1); (3, 1)] 0 ltac:(lia)
           ltac:(intros a b; unfold by_key; lia)
           ltac:(intros a b c; unfold by_key; lia)).
Defined.

Section SoloConflicts.

Context {T E : Type}.
Variable compare : T -> T -> reply E.

Implicit Types (k : task T E) (s : system T E) (t : shape T).

Lemma conflicts_turn s i j :
  conflicts compare (replicate (S j) (Run i)) s i
  = match tasks s !! i with
    | Some k => if stale compare (tree s) k then 1 else 0
    | None => 0
    end + conflicts compare (replicate j (Run i))
            (exec_action compare s (Run i)) i.
Proof. cbn [replicate conflicts]. by destruct (decide (i = i)). Qed.

Lemma conflicts_finished s i k j :
  tasks s !! i = Some k -> finished k = true ->
  conflicts compare (replicate j (Run i)) s i = 0.
Proof.
  intros Hk Hf. induction j as [|j IH]; [done|].
  rewrite conflicts_turn, Hk.
  replace (exec_action compare s (Run i)) with s
    by (symmetry; apply (exec_finished compare s i k 1 Hk Hf)).
  rewrite IH. unfold stale, finished in *. by destruct (t_status k).
Qed.

Lemma conflicts_fresh j s t i n :
  Inv compare s t -> fresh_at s i n ->
  conflicts compare (replicate j (Run i)) s i = 0.
Proof.
  revert s t n. induction j as [|j IH]; intros s t n HInv Hfresh; [done|].
  rewrite conflicts_turn.
  destruct (solo_turn_fresh compare s t i n HInv Hfresh)
    as [(k' & Hk' & Hf)|(c & _ & Hc & _)].
  - rewrite (conflicts_finished _ i k' j Hk' Hf).
    destruct Hfresh as (l & nd & -> & Hn & Hnd).
    unfold stale, pending_reply. simpl. rewrite Hn. simpl. rewrite Hnd. simpl.
    rewrite Z.eqb_refl. by destruct (compare _ _).
  - destruct (inv_step compare s t (Run i) HInv) as [t' HInv'].
    rewrite (IH _ t' c HInv' Hc).
    destruct Hfresh as (l & nd & -> & Hn & Hnd).
    unfold stale, pending_reply. simpl. rewrite Hn. simpl. rewrite Hnd. simpl.
    rewrite Z.eqb_refl. by destruct (compare _ _).
Qed.

(** Over turns given without interruption a call runs into one conflict
    at most, and into none if it had not started. *)
Lemma conflicts_solo j s t i :
  Inv compare s t ->
  0 <= conflicts compare (replicate j (Run i)) s i <= 1 /\
  (forall k, tasks s !! i = Some k -> t_status k = Fresh ->
             conflicts compare (replicate j (Run i)) s i = 0).
Proof.
  intros HInv. destruct j as [|j]; [simpl; split; [lia|done]|].
  rewrite conflicts_turn.
  destruct (tasks s !! i) as [k|] eqn:Hk.
  2:{ simpl. rewrite Hk.
      assert (conflicts compare (replicate j (Run i)) s i = 0) as ->; [|done].
      clear -Hk. induction j as [|j IH]; [done|].
      rewrite conflicts_turn, Hk. simpl. rewrite Hk. by rewrite IH. }
  assert (Hrest : conflicts compare (replicate j (Run i))
                    (exec_action compare s (Run i)) i = 0).
  { destruct (finished k) eqn:Hf.
    - replace (exec_action compare s (Run i)) with s
        by (symmetry; apply (exec_finished compare s i k 1 Hk Hf)).
      by eapply conflicts_finished.
    - destruct (first_turn compare s t i k HInv Hk Hf)
        as [(k' & Hk' & Hf')|(c & Hc & _)].
      + by eapply conflicts_finished.
      + destruct (inv_step compare s t (Run i) HInv) as [t' HInv'].
        by eapply conflicts_fresh. }
  rewrite Hrest. split.
  - destruct (stale compare (tree s) k); lia.
  - intros k0 ? Hst. simplify_eq. unfold stale. by rewrite Hst.
Qed.

End SoloConflicts.

(** X8.  In any state reachable from the empty tree, a call that is given
    its turns without interruption runs into at most one further conflict
    (none if it had not started); so if two retries are left in its budget
    it is over within one turn more than the tree has nodes, having
    returned or raised the exception of the comparison, never the retry
    error. *)
Theorem solo_run_succeeds {T E : Type} (compare : T -> T -> reply E)
    (max_retries : Z) (sched : list (action T)) (i : nat) (k : task T E) :
  let s := exec compare sched (system_init max_retries) in
  tasks s !! i = Some k ->
  (forall j, 0 <= conflicts compare (replicate j (Run i)) s i <= 1) /\
  (t_status k = Fresh ->
   forall j, conflicts compare (replicate j (Run i)) s i = 0) /\
  (retries (t_locals k) + 1 < max_retries ->
   exists j k',
     (j <= length (store (tree s)) + 1)%nat /\
     tasks (exec compare (replicate j (Run i)) s) !! i = Some k' /\
     ((exists x, t_status k' = Returned x) \/
      (exists e, t_status k' = Raised (CompareError e)))).
Proof.
  intros s Hk.
  destruct (inv_reachable compare max_retries sched) as [t HInv].
  fold s in HInv. split_and!.
  - intros j. by apply (conflicts_solo compare j s t i HInv).
  - intros Hst j. by eapply (conflicts_solo compare j s t i HInv).
  - intros Hret.
    destruct (solo_run_finishes compare s t i k HInv Hk)
      as (j & Hj & k' & Hk' & Hf).
    exists j, k'. split; [done|]. split; [done|].
    destruct (inv_exec compare (replicate j (Run i)) s t HInv) as [t' HInv'].
    pose proof (inv_tasks _ _ _ HInv' _ _ Hk') as Hok.
    pose proof (retries_conflicts compare _ s t i k' HInv Hk') as Hr.
    pose proof (proj1 (conflicts_solo compare j s t i HInv)) as Hc.
    pose proof (exec_max_retries compare (replicate j (Run i)) s) as Hm1.
    pose proof (exec_max_retries compare sched (system_init max_retries))
      as Hm2. fold s in Hm2. simpl in Hm2.
    unfold retries_at in Hr. rewrite Hk in Hr.
    unfold task_ok in Hok. rewrite Hm1, Hm2 in Hok.
    unfold finished in Hf.
    destruct (t_status k') as [| | |s0|x|[|e]|]; try done.
    + left. by eexists.
    + lia.
    + right. by eexists.
Qed.

Lemma solo_run_succeeds_witness :
  let s := exec int_compare
             [Spawn 5; Run 0; Spawn 3; Spawn 7; Run 1; Run 2; Run 1]
             (system_init 2) in
  exists j k',
    (j <= length (store (tree s)) + 1)%nat /\
    tasks (exec int_compare (replicate j (Run 2)) s) !! 2%nat = Some k' /\
    ((exists x, t_status k' = Returned x) \/
     (exists e, t_status k' = Raised (CompareError e))).
Proof.
  intros s.
  destruct (solo_run_succeeds int_compare 2
              [Spawn 5; Run 0; Spawn 3; Spawn 7; Run 1; Run 2; Run 1] 2
              {| t_status := AwaitingCompare (snap (new_Node 5));
                 t_locals := {| l_value := 7; retries := 0; node := Some O;
                                parent := None; go_left := false |} |}
              eq_refl) as (_ & _ & H).
  apply H. simpl. lia.
Defined.

Section SpineFacts.

Context {T E : Type}.
Variable cmp : T -> T -> Z.

Implicit Types (h : list (Node T)) (t : shape T) (p : option addr).

Lemma height_spine (c : addr) (vs : list T) : height (spine c vs) = length vs.
Proof.
  revert c. induction vs as [|v vs IH]; intros c; simpl; [done|].
  by rewrite IH.
Qed.

Lemma vals_spine (c : addr) (vs : list T) : vals (spine c vs) = vs.
Proof.
  revert c. induction vs as [|v vs IH]; intros c; simpl; [done|].
  by rewrite IH.
Qed.

Lemma length_addrs_spine (c : addr) (vs : list T) :
  length (addrs (spine c vs)) = length vs.
Proof. by rewrite <- length_vals_addrs, vals_spine. Qed.

(** A value that precedes none of those on the spine goes to its end. *)
Lemma tinsert_spine (c : addr) (vs : list T) v :
  Forall (fun x => 0 <= cmp v x) vs ->
  tinsert cmp (c + length vs)%nat v (spine c vs) = spine c (vs ++ [v]).
Proof.
  revert c. induction vs as [|x vs IH]; intros c Hall; simpl.
  { by rewrite Nat.add_0_r. }
  apply Forall_cons in Hall as [Hx Hall].
  destruct (Z.ltb_spec (cmp v x) 0); [lia|].
  f_equal. rewrite <- (IH (S c)) by done. f_equal. lia.
Qed.

(** Recursion depth below the height of the tree is not enough. *)
Lemma inorder_short h p t fuel acc :
  repr h p t -> (fuel < height t)%nat -> inorder fuel h p acc = None.
Proof.
  revert p fuel acc.
  induction t as [|l IHl a x r IHr]; simpl; intros p fuel acc Hrep Hfuel.
  { lia. }
  destruct Hrep as (-> & n & Hn & Hx & Hl & Hr).
  destruct fuel as [|fuel]; [done|]. simpl. rewrite Hn.
  destruct (decide (height l <= fuel)%nat) as [Hle|Hgt].
  - rewrite (inorder_repr _ _ l) by done. apply (IHr _ _ _ Hr). lia.
  - rewrite (IHl _ _ _ Hl); [done|lia].
Qed.

Lemma insert_each_spine (vs pre : list T) (s : system T E) :
  Inv (answering cmp) s (spine O pre) -> 0 < _max_retries (tree s) ->
  StronglySorted (fun a b => 0 <= cmp b a) (pre ++ vs) ->
  Inv (answering cmp) (insert_each (answering cmp) vs s) (spine O (pre ++ vs)).
Proof.
  revert pre s. induction vs as [|v vs IH]; intros pre s HInv Hmax Hsorted.
  { by rewrite app_nil_r. }
  destruct (insert_now_spec cmp s (spine O pre) v HInv Hmax)
    as (x & l' & H1 & _ & _ & _ & Hm).
  assert (Hlen : length (store (tree s)) = length pre).
  { pose proof (Permutation_length (inv_addrs _ _ _ HInv)) as Hl.
    by rewrite length_seq, length_addrs_spine in Hl. }
  rewrite Hlen in H1. change (length pre) with (O + length pre)%nat in H1.
  rewrite (tinsert_spine O pre v) in H1.
  - replace (pre ++ v :: vs) with ((pre ++ [v]) ++ vs)
      by (by rewrite <- app_assoc).
    apply IH; [exact H1|by rewrite Hm|by rewrite <- app_assoc].
  - apply StronglySorted_app in Hsorted as (Hcross & _ & _).
    apply Forall_forall. intros y Hy. apply Hcross; [done|by left].
Qed.

End SpineFacts.

(** Counting the calls made with an absent child takes one nested call
    more than counting the nodes. *)
Lemma inorder_calls_S {T : Type} (d : nat) (h : list (Node T))
    (nd : option addr) (acc : list T) :
  inorder_calls (S d) h nd acc = inorder d h nd acc.
Proof.
  revert nd acc. induction d as [|d IH]; intros nd acc.
  - destruct nd as [n|]; simpl; [|done]. by destruct (h !! n).
  - destruct nd as [n|]; [|done].
    change (inorder_calls (S (S d)) h (Some n) acc)
      with (match h !! n with
            | None => None
            | Some x =>
                match inorder_calls (S d) h (left x) acc with
                | None => None
                | Some result1 =>
                    inorder_calls (S d) h (right x) (result1 ++ [value x])
                end
            end).
    cbn [inorder]. destruct (h !! n) as [x|]; [|done].
    rewrite IH. destruct (inorder d h (left x) acc) as [r1|]; [|done].
    apply IH.
Qed.

(** X9.  No rebalancing: when values are inserted one at a time in an
    order in which no value precedes an earlier one (sorted input), the
    tree is a chain down the right.  [to_list] then returns the values in
    the order of the calls, and its nested function [inorder] calls itself
    one level deeper than there are values (the last call is the one on
    the absent child of the last node): where fewer nested calls are
    allowed, [to_list] does not return. *)
Theorem sorted_input_chain {T E : Type} (cmp : T -> T -> Z)
    (max_retries : Z) (vs : list T) (limit : nat) :
  0 < max_retries ->
  StronglySorted (fun a b => 0 <= cmp b a) vs ->
  let s := insert_each (answering (E := E) cmp) vs (system_init max_retries) in
  to_list_calls limit (tree s)
  = if decide (length vs < limit)%nat then Some vs else None.
Proof.
  intros Hmax Hsorted s.
  pose proof (insert_each_spine (E := E) cmp vs [] (system_init max_retries)
                (inv_init _ _) Hmax Hsorted) as HInv.
  simpl in HInv. fold s in HInv. unfold to_list_calls.
  destruct limit as [|depth].
  { destruct (decide (length vs < 0)%nat); [lia|done]. }
  rewrite inorder_calls_S.
  destruct (decide (length vs < S depth)%nat) as [Hle|Hgt].
  - rewrite (inorder_repr _ _ (spine O vs)); [|apply HInv|].
    + by rewrite vals_spine.
    + rewrite height_spine. lia.
  - apply (inorder_short _ _ (spine O vs)); [apply HInv|].
    rewrite height_spine. lia.
Qed.

Lemma sorted_input_chain_witness :
  let s := insert_each int_compare [1; 2; 3; 4] (system_init 100) in
  to_list_calls 5 (tree s) = Some [1; 2; 3; 4] /\
  to_list_calls 4 (tree s) = None.
Proof.
  intros s.
  assert (Hs : StronglySorted (fun a b : Z => 0 <= b - a) [1; 2; 3; 4]).
  { repeat (constructor; [|repeat constructor; lia]). constructor. }
  split.
  - exact (sorted_input_chain (E := Empty_set) Z.sub 100 [1; 2; 3; 4] 5
             ltac:(lia) Hs).
  - exact (sorted_input_chain (E := Empty_set) Z.sub 100 [1; 2; 3; 4] 4
             ltac:(lia) Hs).
Defined.

(** * Overlapping calls of a [CachedCompare] *)

Section OverlapFacts.

Import Cached Overlap.

Context {T E : Type}.
Variable ident : T -> Z.
Variable compare : T -> T -> reply E.

#[local] Abbreviation step := (step ident compare).
#[local] Abbreviation run := (run ident compare).
#[local] Abbreviation traceable := (traceable ident compare).

Implicit Types (w : state T E) (k : pending T E).

Lemma tally_app (f : pending T E -> bool) (ps qs : list (pending T E)) :
  tally f (ps ++ qs) = tally f ps + tally f qs.
Proof. induction ps as [|k ps IH]; simpl; [done|]. rewrite IH. lia. Qed.

Lemma tally_insert (f : pending T E -> bool) (ps : list (pending T E)) i k k' :
  ps !! i = Some k ->
  tally f (<[i := k']> ps)
  = tally f ps - (if f k then 1 else 0) + (if f k' then 1 else 0).
Proof.
  revert i. induction ps as [|p ps IH]; intros [|i] H; simpl in *; try done.
  - injection H as ->. lia.
  - rewrite (IH _ H). lia.
Qed.

Lemma run_snoc es e w : run (es ++ [e]) w = step (run es w) e.
Proof. unfold run, Overlap.run. by rewrite fold_left_app. Qed.

Lemma balanced_step w e : balanced w -> balanced (step w e).
Proof.
  unfold balanced, is_hit, is_miss, in_flight, has_raised.
  intros (Hh & Hm & Hi). destruct e as [a b|i]; simpl.
  - rewrite !tally_app. simpl. lia.
  - destruct (pendings w !! i) as [k|] eqn:Hk; [|done].
    destruct k as [a b ph]. unfold turn; simpl.
    destruct ph as [| |r c|e].
    + unfold probe.
      destruct (_cache (memo w) !! (ident a, ident b)) as [r|];
        [|destruct (_cache (memo w) !! (ident b, ident a)) as [r|]];
        simpl; rewrite !(tally_insert _ _ _ _ _ Hk); simpl; lia.
    + destruct (compare a b) as [r|e]; simpl;
        rewrite !(tally_insert _ _ _ _ _ Hk); simpl; lia.
    + simpl. rewrite !(tally_insert _ _ _ _ _ Hk). simpl.
      destruct c; lia.
    + simpl. rewrite !(tally_insert _ _ _ _ _ Hk). simpl. lia.
Qed.

Lemma traceable_step w e : traceable w -> traceable (step w e).
Proof.
  intros (Hg & Ha). destruct e as [a b|i]; simpl.
  - split; [done|]. simpl. intros j k Hj.
    apply lookup_app_Some in Hj as [Hj|[_ Hj]]; [by eapply Ha|].
    by apply list_lookup_singleton_Some in Hj as [_ <-].
  - destruct (pendings w !! i) as [k0|] eqn:Hk0; [|done].
    destruct k0 as [a b ph]. unfold turn; simpl.
    assert (Hold : forall c' n' ph',
      match ph' with
      | Answered r c =>
          exists x y, ident x = ident a /\ ident y = ident b /\
            (compare x y = Ret r \/
             (c = true /\ exists r', compare y x = Ret r' /\ r = - r'))
      | Failed e => compare a b = Exc e
      | Called | Delegated => True
      end ->
      forall j k,
        pendings {| memo := c'; invoked := n';
                    pendings := <[i := mkPending a b ph']> (pendings w) |} !! j
        = Some k ->
        match at_phase k with
        | Answered r c =>
            exists x y, ident x = ident (fst_op k) /\
              ident y = ident (snd_op k) /\
              (compare x y = Ret r \/
               (c = true /\ exists r', compare y x = Ret r' /\ r = - r'))
        | Failed e => compare (fst_op k) (snd_op k) = Exc e
        | Called | Delegated => True
        end).
    { intros c' n' ph' Hph j k Hj. simpl in Hj.
      destruct (decide (i = j)) as [<-|Hne].
      - rewrite list_lookup_insert_eq in Hj
          by (by eapply lookup_lt_Some).
        by injection Hj as <-.
      - rewrite list_lookup_insert_ne in Hj by done. by eapply Ha. }
    destruct ph as [| |r0 c0|e0].
    + unfold probe.
      destruct (_cache (memo w) !! (ident a, ident b)) as [r|] eqn:Hkey.
      { split; [done|]. apply Hold.
        destruct (Hg _ _ Hkey) as (x & y & [= Hx Hy] & Hxy).
        exists x, y. auto. }
      destruct (_cache (memo w) !! (ident b, ident a)) as [r|] eqn:Hrev.
      { split; [done|]. apply Hold.
        destruct (Hg _ _ Hrev) as (x & y & [= Hx Hy] & Hxy).
        exists y, x. split_and!; [done|done|]. right. split; [done|].
        by exists r. }
      split; [done|]. by apply Hold.
    + destruct (compare a b) as [r|e] eqn:Hc.
      * split.
        -- simpl. intros key r' Hkey.
           destruct (decide (key = (ident a, ident b))) as [->|Hne].
           ++ rewrite lookup_insert_eq in Hkey. injection Hkey as <-.
              by exists a, b.
           ++ rewrite lookup_insert_ne in Hkey by done. by apply Hg.
        -- apply Hold. exists a, b. auto.
      * split; [done|]. by apply Hold.
    + split; [done|]. apply Hold.
      exact (Ha i (mkPending a b (Answered r0 c0)) Hk0).
    + split; [done|]. apply Hold.
      exact (Ha i (mkPending a b (Failed e0)) Hk0).
Qed.

Lemma turn_delegates w i a b :
  pendings w !! i = Some (mkPending a b Called) ->
  _cache (memo w) !! (ident a, ident b) = None ->
  _cache (memo w) !! (ident b, ident a) = None ->
  step w (Turn i)
  = {| memo := memo w; invoked := invoked w + 1;
       pendings := <[i := mkPending a b Delegated]> (pendings w) |}.
Proof.
  intros Hi Hkey Hrev. unfold Overlap.step. rewrite Hi.
  unfold turn, probe. cbn. by rewrite Hkey, Hrev.
Qed.

Lemma turn_records w i a b r :
  pendings w !! i = Some (mkPending a b Delegated) ->
  compare a b = Ret r ->
  step w (Turn i)
  = {| memo := record ident (memo w) a b r;
       invoked := invoked w;
       pendings := <[i := mkPending a b (Answered r false)]>
                     (pendings w) |}.
Proof.
  intros Hi Hr. unfold Overlap.step. rewrite Hi. unfold turn. cbn.
  by rewrite Hr.
Qed.

Lemma turn_raises w i a b e :
  pendings w !! i = Some (mkPending a b Delegated) ->
  compare a b = Exc e ->
  step w (Turn i)
  = {| memo := memo w; invoked := invoked w;
       pendings := <[i := mkPending a b (Failed e)]> (pendings w) |}.
Proof.
  intros Hi He. unfold Overlap.step. rewrite Hi. unfold turn. cbn.
  by rewrite He.
Qed.

Lemma run_ind (P : state T E -> Prop) :
  P state_init ->
  (forall w e, P w -> P (step w e)) ->
  forall es, P (run es state_init).
Proof.
  intros H0 Hs es. induction es as [|e es IH] using rev_ind; [done|].
  rewrite run_snoc. by apply Hs.
Qed.

End OverlapFacts.

(** X10. Under any interleaving of any calls of a [CachedCompare], with a
    wrapped comparison that answers or raises: [hits] is the number of
    calls answered from the cache, [misses] the number of calls answered by
    the wrapped comparison, and the wrapped comparison has been invoked
    once for each miss, once for each call still suspended in it and once
    for each call that ended in its exception (which counts neither as hit
    nor as miss). *)
Theorem cached_counters_balance {T E : Type} (ident : T -> Z)
    (compare : T -> T -> reply E) (es : list (Overlap.event T)) :
  let w := Overlap.run ident compare es Overlap.state_init in
  Cached.hits (Overlap.memo w) = Overlap.tally Overlap.is_hit (Overlap.pendings w) /\
  Cached.misses (Overlap.memo w) = Overlap.tally Overlap.is_miss (Overlap.pendings w) /\
  Overlap.invoked w
  = Cached.misses (Overlap.memo w)
    + Overlap.tally Overlap.in_flight (Overlap.pendings w)
    + Overlap.tally Overlap.has_raised (Overlap.pendings w).
Proof.
  simpl.
  assert (H : Overlap.balanced
                (Overlap.run ident compare es Overlap.state_init)).
  { apply run_ind; [by repeat split|]. intros w e. apply balanced_step. }
  destruct H as (Hh & Hm & Hi). repeat split; [done|done|lia].
Qed.

(** X11. With identities that tell operands apart, under any interleaving
    every answer of a [CachedCompare] is the answer of the wrapped
    comparison on the two operands, or, for an answer from the cache only,
    the negation of its answer on the operands swapped; and every
    exception a call ends in is the one the wrapped comparison raises on
    the two operands. *)
Theorem cached_answers_traceable {T E : Type} (ident : T -> Z)
    (compare : T -> T -> reply E) (es : list (Overlap.event T))
    (i : nat) (k : Overlap.pending T E) :
  (forall x y, ident x = ident y -> x = y) ->
  Overlap.pendings (Overlap.run ident compare es Overlap.state_init) !! i
  = Some k ->
  (forall r c, Overlap.at_phase k = Overlap.Answered r c ->
     compare (Overlap.fst_op k) (Overlap.snd_op k) = Ret r \/
     (c = true /\
      exists r', compare (Overlap.snd_op k) (Overlap.fst_op k) = Ret r' /\
                 r = - r')) /\
  (forall e, Overlap.at_phase k = Overlap.Failed e ->
     compare (Overlap.fst_op k) (Overlap.snd_op k) = Exc e).
Proof.
  intros Hinj Hk.
  assert (H : Overlap.traceable ident compare
                (Overlap.run ident compare es Overlap.state_init)).
  { apply run_ind; [|intros w e; apply traceable_step].
    split; [intros key r' H; cbn in H; by rewrite lookup_empty in H|].
    intros j k' H. cbn in H. by rewrite lookup_nil in H. }
  destruct H as [_ H]. specialize (H _ _ Hk). split.
  - intros r c Hr. rewrite Hr in H. destruct H as (x & y & Hx & Hy & Hxy).
    apply Hinj in Hx as ->. by apply Hinj in Hy as ->.
  - intros e He. by rewrite He in H.
Qed.

Lemma cached_answers_traceable_witness :
  let es := [Overlap.Call 1 2; Overlap.Call 2 1; Overlap.Call 1 7;
             Overlap.Turn 0%nat; Overlap.Turn 2%nat; Overlap.Turn 0%nat;
             Overlap.Turn 1%nat; Overlap.Turn 2%nat] in
  let w := Overlap.run id picky_compare es Overlap.state_init in
  Overlap.pendings w !! 1%nat
  = Some (Overlap.mkPending 2 1 (Overlap.Answered 1 true)) /\
  (picky_compare 2 1 = Ret 1 \/
   (true = true /\ exists r', picky_compare 1 2 = Ret r' /\ 1 = - r')).
Proof.
  split; [reflexivity|].
  apply (cached_answers_traceable id picky_compare
           [Overlap.Call 1 2; Overlap.Call 2 1; Overlap.Call 1 7;
            Overlap.Turn 0%nat; Overlap.Turn 2%nat; Overlap.Turn 0%nat;
            Overlap.Turn 1%nat; Overlap.Turn 2%nat]
           1%nat (Overlap.mkPending 2 1 (Overlap.Answered 1 true)));
    [intros x y H; exact H | reflexivity | reflexivity].
Defined.

(** X12. Calls in flight are not coalesced: two calls for the same pair
    that both pass the first lookup before either is over both invoke the
    wrapped comparison and count no hit.  If the wrapped comparison
    answers, both count as misses and both return its answer; if it
    raises, both end in its exception, no miss is counted and the cache is
    left as it was. *)
Theorem cached_overlap_invokes_twice {T E : Type} (ident : T -> Z)
    (compare : T -> T -> reply E) (w : Overlap.state T E)
    (i j : nat) (a b : T) :
  i <> j ->
  Overlap.pendings w !! i = Some (Overlap.mkPending a b Overlap.Called) ->
  Overlap.pendings w !! j = Some (Overlap.mkPending a b Overlap.Called) ->
  Cached._cache (Overlap.memo w) !! (ident a, ident b) = None ->
  Cached._cache (Overlap.memo w) !! (ident b, ident a) = None ->
  let w' := Overlap.run ident compare
              [Overlap.Turn i; Overlap.Turn j; Overlap.Turn i; Overlap.Turn j]
              w in
  Overlap.invoked w' = Overlap.invoked w + 2 /\
  Cached.hits (Overlap.memo w') = Cached.hits (Overlap.memo w) /\
  match compare a b with
  | Ret r =>
      Cached.misses (Overlap.memo w') = Cached.misses (Overlap.memo w) + 2 /\
      Overlap.pendings w' !! i
      = Some (Overlap.mkPending a b (Overlap.Answered r false)) /\
      Overlap.pendings w' !! j
      = Some (Overlap.mkPending a b (Overlap.Answered r false))
  | Exc e =>
      Overlap.memo w' = Overlap.memo w /\
      Overlap.pendings w' !! i
      = Some (Overlap.mkPending a b (Overlap.Failed e)) /\
      Overlap.pendings w' !! j
      = Some (Overlap.mkPending a b (Overlap.Failed e))
  end.
Proof.
  intros Hne Hi Hj Hkey Hrev.
  pose proof (lookup_lt_Some _ _ _ Hi) as Hli.
  pose proof (lookup_lt_Some _ _ _ Hj) as Hlj.
  unfold Overlap.run. cbn [fold_left].
  rewrite (turn_delegates ident compare w i a b Hi Hkey Hrev).
  set (d := Overlap.mkPending a b Overlap.Delegated).
  rewrite (turn_delegates ident compare
             (Overlap.mkState (Overlap.memo w) (Overlap.invoked w + 1)
                (<[i := d]> (Overlap.pendings w))) j a b);
    [|by cbn; rewrite list_lookup_insert_ne|done|done].
  cbn [Overlap.memo Overlap.invoked Overlap.pendings]. fold d.
  destruct (compare a b) as [r0|e] eqn:Hc.
  - set (r := Overlap.mkPending a b (Overlap.Answered (E := E) r0 false)).
    rewrite (turn_records ident compare
               (Overlap.mkState (Overlap.memo w) (Overlap.invoked w + 1 + 1)
                  (<[j := d]> (<[i := d]> (Overlap.pendings w)))) i a b r0);
      [|cbn; rewrite list_lookup_insert_ne by done;
        by rewrite list_lookup_insert_eq|done].
    cbn [Overlap.memo Overlap.invoked Overlap.pendings]. fold r.
    rewrite (turn_records ident compare
               (Overlap.mkState
                  (Cached.record ident (Overlap.memo w) a b r0)
                  (Overlap.invoked w + 1 + 1)
                  (<[i := r]> (<[j := d]> (<[i := d]> (Overlap.pendings w)))))
               j a b r0);
      [|cbn; rewrite list_lookup_insert_ne by done;
        rewrite list_lookup_insert_eq; [done|by rewrite length_insert]|done].
    cbn. repeat split; try lia.
    + rewrite list_lookup_insert_ne by done.
      apply list_lookup_insert_eq. by rewrite !length_insert.
    + apply list_lookup_insert_eq. by rewrite !length_insert.
  - set (r := Overlap.mkPending a b (Overlap.Failed e)).
    rewrite (turn_raises ident compare
               (Overlap.mkState (Overlap.memo w) (Overlap.invoked w + 1 + 1)
                  (<[j := d]> (<[i := d]> (Overlap.pendings w)))) i a b e);
      [|cbn; rewrite list_lookup_insert_ne by done;
        by rewrite list_lookup_insert_eq|done].
    cbn [Overlap.memo Overlap.invoked Overlap.pendings]. fold r.
    rewrite (turn_raises ident compare
               (Overlap.mkState (Overlap.memo w) (Overlap.invoked w + 1 + 1)
                  (<[i := r]> (<[j := d]> (<[i := d]> (Overlap.pendings w)))))
               j a b e);
      [|cbn; rewrite list_lookup_insert_ne by done;
        rewrite list_lookup_insert_eq; [done|by rewrite length_insert]|done].
    cbn. repeat split; try lia.
    + rewrite list_lookup_insert_ne by done.
      apply list_lookup_insert_eq. by rewrite !length_insert.
    + apply list_lookup_insert_eq. by rewrite !length_insert.
Qed.

Lemma cached_overlap_invokes_twice_witness :
  let w := Overlap.run id picky_compare [Overlap.Call 1 2; Overlap.Call 1 2]
             Overlap.state_init in
  let w' := Overlap.run id picky_compare
              [Overlap.Turn 0%nat; Overlap.Turn 1%nat;
               Overlap.Turn 0%nat; Overlap.Turn 1%nat] w in
  Overlap.invoked w' = Overlap.invoked w + 2 /\
  Cached.hits (Overlap.memo w') = Cached.hits (Overlap.memo w) /\
  Cached.misses (Overlap.memo w') = Cached.misses (Overlap.memo w) + 2 /\
  Overlap.pendings w' !! 0%nat
  = Some (Overlap.mkPending 1 2 (Overlap.Answered (-1) false)) /\
  Overlap.pendings w' !! 1%nat
  = Some (Overlap.mkPending 1 2 (Overlap.Answered (-1) false)).
Proof.
  apply (cached_overlap_invokes_twice id picky_compare
           (Overlap.run id picky_compare [Overlap.Call 1 2; Overlap.Call 1 2]
              Overlap.state_init) 0%nat 1%nat 1 2);
    [lia | reflexivity | reflexivity | reflexivity | reflexivity].
Defined.

(** * What later inserts leave in place *)

Section Growth.

Context {T E : Type}.
Variable compare : T -> T -> reply E.

Lemma root_stays_exec more (s : system T E) t r :
  Inv compare s t -> _root (tree s) = Some r ->
  _root (tree (exec compare more s)) = Some r.
Proof.
  revert s t. induction more as [|a more IH]; intros s t HInv Hr; simpl; [done|].
  destruct (inv_step compare s t a HInv) as [t' HInv'].
  eapply IH; [exact HInv'|]. by eapply root_stays.
Qed.

(** A search that ended on a node, or in the comparison's exception,
    followed child pointers only; those stay. *)
Lemma contains_from_stable (h h' : list (Node T)) fuel p v r :
  store_step h h' ->
  contains_from compare fuel h p v = Some r -> r <> Value false ->
  contains_from compare fuel h' p v = Some r.
Proof.
  intros [Hs _]. revert p. induction fuel as [|fuel IH]; intros p H Hr.
  { destruct p; simpl in *; congruence. }
  destruct p as [n|]; simpl in *; [|congruence].
  destruct (h !! n) as [x|] eqn:Hx; [|done].
  destruct (Hs _ _ Hx) as (x' & Hx' & Hv & Hl & Hrr & _).
  unfold addr in *. rewrite Hx', Hv.
  destruct (compare v (value x)) as [c|e]; [|done].
  destruct (c =? 0); [done|].
  destruct (c <? 0).
  - destruct (left x) as [c'|] eqn:Hlx.
    + rewrite (Hl _ eq_refl). by apply IH.
    + destruct fuel; simpl in H; congruence.
  - destruct (right x) as [c'|] eqn:Hrx.
    + rewrite (Hrr _ eq_refl). by apply IH.
    + destruct fuel; simpl in H; congruence.
Qed.

(** The tree below a pointer only gains values, between the ones it had. *)
Lemma vals_grow (h h' : list (Node T)) p (t t' : shape T) :
  store_step h h' -> repr h p t -> repr h' p t' ->
  vals t `sublist_of` vals t'.
Proof.
  intros [Hs _]. revert p t'.
  induction t as [|l IHl a x r IHr]; intros p t' Hrep Hrep'; simpl.
  { apply sublist_nil_l. }
  destruct Hrep as (-> & n & Hn & Hx & Hl & Hr).
  apply repr_Some in Hrep' as (l' & x' & r' & n' & -> & Hn' & Hx' & Hl' & Hr').
  destruct (Hs _ _ Hn) as (n'' & Hn'' & Hv & Hkl & Hkr & _).
  unfold addr in *.
  assert (n'' = n') as -> by congruence.
  assert (x' = x) as -> by congruence.
  simpl. apply sublist_app; [|apply sublist_skip].
  - destruct (left n) as [c|] eqn:Hc.
    + rewrite (Hkl _ eq_refl) in Hl'. by eapply IHl.
    + apply repr_None in Hl as ->. apply sublist_nil_l.
  - destruct (right n) as [c|] eqn:Hc.
    + rewrite (Hkr _ eq_refl) in Hr'. by eapply IHr.
    + apply repr_None in Hr as ->. apply sublist_nil_l.
Qed.

Lemma to_list_vals d (b : BST T) (t : shape T) l :
  repr (store b) (_root b) t -> to_list d b = Some l -> l = vals t.
Proof.
  intros Hrep H. unfold to_list in H.
  destruct (decide (height t <= d)%nat) as [Hle|Hgt].
  - rewrite (inorder_repr _ _ _ _ _ Hrep Hle) in H. by injection H as <-.
  - rewrite (inorder_short _ _ _ _ _ Hrep) in H by lia. done.
Qed.

End Growth.

(** X13. While inserts go on (any comparison, any interleaving), a
    [contains(v)] that has answered [True] once, or has raised the
    comparison's exception, does so again in every later state: a search
    that found its value walks the same nodes ever after. *)
Theorem contains_found_stays {T E : Type} (compare : T -> T -> reply E)
    (max_retries : Z) (sched more : list (action T)) (fuel : nat) (v : T)
    (r : result E bool) :
  let s := exec compare sched (system_init max_retries) in
  contains compare fuel (tree s) v = Some r ->
  r <> Value false ->
  contains compare fuel (tree (exec compare more s)) v = Some r.
Proof.
  intros s H Hr.
  destruct (inv_reachable compare max_retries sched) as [t HInv].
  fold s in HInv. unfold contains in *.
  destruct (_root (tree s)) as [a|] eqn:Ha.
  - rewrite (root_stays_exec compare more s t a HInv Ha).
    eapply contains_from_stable; [apply exec_store|done|done].
  - destruct fuel; simpl in H; congruence.
Qed.

Lemma contains_found_stays_witness :
  let s := exec int_compare [Spawn 5; Run 0; Spawn 3; Run 1] (system_init 100) in
  contains int_compare 1
    (tree (exec int_compare [Run 1; Spawn 7; Run 2; Run 2] s)) 5
  = Some (Value true).
Proof.
  intros s.
  apply (contains_found_stays int_compare 100 [Spawn 5; Run 0; Spawn 3; Run 1]
           [Run 1; Spawn 7; Run 2; Run 2] 1 5 (Value true));
    [reflexivity | discriminate].
Defined.

(** X14. While inserts go on (any comparison, any interleaving), [to_list]
    only gains elements: what it returned in an earlier state is what it
    returns in any later state with some elements left out, the others in
    the same order. *)
Theorem to_list_grows {T E : Type} (compare : T -> T -> reply E)
    (max_retries : Z) (sched more : list (action T)) (d d' : nat)
    (l l' : list T) :
  let s := exec compare sched (system_init max_retries) in
  to_list d (tree s) = Some l ->
  to_list d' (tree (exec compare more s)) = Some l' ->
  l `sublist_of` l'.
Proof.
  intros s H H'.
  destruct (inv_reachable compare max_retries sched) as [t HInv].
  fold s in HInv.
  destruct (inv_exec compare more s t HInv) as [t' HInv'].
  pose proof (inv_repr _ _ _ HInv) as Hrep.
  pose proof (inv_repr _ _ _ HInv') as Hrep'.
  rewrite (to_list_vals _ _ _ _ Hrep H), (to_list_vals _ _ _ _ Hrep' H').
  destruct (_root (tree s)) as [a|] eqn:Ha.
  - rewrite (root_stays_exec compare more s t a HInv Ha) in Hrep'.
    eapply vals_grow; [apply (exec_store compare more s)|done|done].
  - apply repr_None in Hrep as ->. apply sublist_nil_l.
Qed.

Lemma to_list_grows_witness :
  [5] `sublist_of` [3; 5; 7].
Proof.
  apply (to_list_grows int_compare 100 [Spawn 5; Run 0; Spawn 3; Run 1]
           [Run 1; Spawn 7; Run 2; Run 2] 1 2 [5] [3; 5; 7]);
    reflexivity.
Defined.
